(** * Subtitleler: word-to-subtitle segmentation and SRT timestamps

    A shallow embedding of [src/TranscribirV2.py] (and of the timestamp
    formatter it shares with [src/Transcribir.py]).

    - Python [str] values are lists of Unicode code points ([list N]);
      [len] is [length], [+] is [++], [str.strip()] is [strip].
    - Python [int] values are [Z].
    - The word timestamps are Python floats.  The segmenter only subtracts
      and compares them, so it is written once over an abstract time type
      ([TimeOps]); instances are given for exact rationals ([Q]) and for
      IEEE binary64 ([PrimFloat.float]).  The timestamp formatter and the
      file output are modelled on the exact instance.
    - [None] is [option]'s [None]; a call either returns or raises
      ([Outcome]); [print] and the file written are recorded as effects. *)

From Stdlib Require Import String Ascii.
From Stdlib Require Import List Bool Arith NArith ZArith QArith Qround Lia.
From Stdlib Require Import Sorted Floats.
Import ListNotations.
Close Scope Q_scope.

Set Implicit Arguments.

(* ================================================================= *)
(** ** Python strings *)

Module PyStr.

(** A string is its sequence of code points. *)
Definition str := list N.

(** A string literal of the model, for ASCII text. *)
Definition lit (s : string) : str :=
  List.map N_of_ascii (list_ascii_of_string s).

(** [str.isspace] on one code point: the characters [str.strip()] removes
    when called without argument. *)
Definition isspace (c : N) : bool :=
  ((9 <=? c) && (c <=? 13) || (28 <=? c) && (c <=? 32)
   || (c =? 133) || (c =? 160) || (c =? 5760)
   || (8192 <=? c) && (c <=? 8202)
   || (c =? 8232) || (c =? 8233) || (c =? 8239) || (c =? 8287)
   || (c =? 12288))%N.

Fixpoint lstrip (s : str) : str :=
  match s with
  | [] => []
  | c :: r => if isspace c then lstrip r else s
  end.

Definition rstrip (s : str) : str := rev (lstrip (rev s)).

(** [s.strip()] *)
Definition strip (s : str) : str := rstrip (lstrip s).

(** Truth value of a string: [if s] holds when [s] is not empty. *)
Definition truthy (s : str) : bool :=
  match s with [] => false | _ :: _ => true end.

(** The one-character string [" "]. *)
Definition space : str := [32%N].

(** [sep.join(l)] *)
Fixpoint join (sep : str) (l : list str) : str :=
  match l with
  | [] => []
  | x :: r => match r with [] => x | _ :: _ => x ++ sep ++ join sep r end
  end.

(** String equality, [a == b]. *)
Definition str_eqb (a b : str) : bool :=
  if list_eq_dec N.eq_dec a b then true else false.

(** [x in l] for a list [l] of strings. *)
Definition str_in (x : str) (l : list str) : bool := existsb (str_eqb x) l.

(** *** Strings without white space at either end *)

(** The first character exists and is no white space. *)
Definition headok (s : str) : bool :=
  match s with [] => false | c :: _ => negb (isspace c) end.

(** Not empty, and no white space at either end. *)
Definition ok (s : str) : Prop := headok s = true /\ headok (rev s) = true.

(** [stripped s]: [s] is empty, or starts and ends with a character that is
    no white space. *)
Definition stripped (s : str) : Prop := s = [] \/ ok s.

End PyStr.

Import PyStr.

(* ================================================================= *)
(** ** Time stamps *)

(** The operations the segmenter applies to time stamps. *)
Class TimeOps (T : Type) := {
  tzero : T;               (* the literal [0.0] *)
  tsub : T -> T -> T;      (* [a - b] *)
  tgtb : T -> T -> bool;   (* [a > b] *)
  tgeb : T -> T -> bool;   (* [a >= b] *)
  tleb : T -> T -> bool    (* [a <= b] *)
}.

(** Exact arithmetic on rationals. *)
#[export] Instance Q_time : TimeOps Q := {|
  tzero := 0%Q;
  tsub := Qminus;
  tgtb a b := negb (Qle_bool a b);
  tgeb a b := Qle_bool b a;
  tleb := Qle_bool
|}.

(** IEEE 754 binary64, the arithmetic of Python's [float]. *)
#[export] Instance float_time : TimeOps float := {|
  tzero := 0%float;
  tsub := PrimFloat.sub;
  tgtb a b := PrimFloat.ltb b a;
  tgeb a b := PrimFloat.leb b a;
  tleb := PrimFloat.leb
|}.

(** The order laws used where a claim compares time stamps. *)
Class TimeOrder (T : Type) `{TimeOps T} : Prop := {
  tleb_trans : forall a b c : T,
    tleb a b = true -> tleb b c = true -> tleb a c = true
}.

Arguments TimeOrder T {_}.

(* ================================================================= *)
(** ** The segmenter: [create_srt_with_natural_breaks], lines 62-165 *)

Section Segmenter.

Context {T : Type} `{TimeOps T}.

(** One entry of a segment's ["words"] list. *)
Record Word := {
  w_word : str;     (* w["word"] *)
  w_start : T;      (* w["start"] *)
  w_end : T         (* w["end"] *)
}.

(** One recognizer segment; the key ["words"] may be missing. *)
Record Segment := { seg_words : option (list Word) }.

(** One entry of [subtitles].  The source stores the variables
    [chunk_start_time] and [chunk_end_time], which may hold [None]. *)
Record Subtitle := {
  s_start : option T;   (* sub["start"] *)
  s_end : option T;     (* sub["end"] *)
  s_text : str          (* sub["text"] *)
}.

(** The keyword parameters. *)
Record Config := {
  max_chars : Z;
  max_duration : T;
  silence_threshold : T;
  punctuation_breaks : list str
}.

(** The local variables of the loop. *)
Record State := {
  subtitles : list Subtitle;
  chunk_start_time : option T;
  chunk_end_time : option T;
  chunk_text : str;
  prev_word_end : T
}.

Variable cfg : Config.

(** Lines 63-66: the words of all segments that have some. *)
Fixpoint words_list (segments : list Segment) : list Word :=
  match segments with
  | [] => []
  | seg :: rest =>
      match seg_words seg with
      | Some ws => ws ++ words_list rest
      | None => words_list rest
      end
  end.

(** The dictionary appended to [subtitles] when a chunk is closed. *)
Definition closed_chunk (st : State) : Subtitle :=
  {| s_start := chunk_start_time st;
     s_end := chunk_end_time st;
     s_text := strip (chunk_text st) |}.

(** Close the chunk and start a new one with the current word
    (lines 105-113, 117-124 and 129-136). *)
Definition cut_and_reopen (w : Word) (st : State) : State :=
  {| subtitles := subtitles st ++ [closed_chunk st];
     chunk_start_time := Some (w_start w);
     chunk_end_time := Some (w_end w);
     chunk_text := strip (w_word w);
     prev_word_end := prev_word_end st |}.

(** [trimmed_word[-1] if trimmed_word else ""] *)
Definition last_char (trimmed_word : str) : str :=
  match rev trimmed_word with
  | [] => []
  | c :: _ => [c]
  end.

Definition len (s : str) : Z := Z.of_nat (length s).

(** The body of the loop (lines 85-157) for the word [w] at index [i] of
    a list of [n] words. *)
Definition step (n i : nat) (w : Word) (st : State) : State :=
  let word_text := w_word w in
  let word_start := w_start w in
  let word_end := w_end w in
  let trimmed_word := strip word_text in
  match chunk_start_time st with
  | None =>
      {| subtitles := subtitles st;
         chunk_start_time := Some word_start;
         chunk_end_time := Some word_end;
         chunk_text := trimmed_word;
         prev_word_end := word_end |}
  | Some cs =>
      let proposed_text := strip (chunk_text st ++ space ++ trimmed_word) in
      let proposed_duration := tsub word_end cs in
      let st' :=
        if (len proposed_text >? max_chars cfg)%Z then
          cut_and_reopen w st
        else if tgtb proposed_duration (max_duration cfg) then
          cut_and_reopen w st
        else if tgeb (tsub word_start (prev_word_end st))
                     (silence_threshold cfg)
                && (len (chunk_text st) >? 0)%Z then
          cut_and_reopen w st
        else
          let st1 :=
            {| subtitles := subtitles st;
               chunk_start_time := chunk_start_time st;
               chunk_end_time := Some word_end;
               chunk_text := proposed_text;
               prev_word_end := prev_word_end st |} in
          if str_in (last_char trimmed_word) (punctuation_breaks cfg)
             && (Z.of_nat i <? Z.of_nat n - 1)%Z then
            {| subtitles := subtitles st1 ++ [closed_chunk st1];
               chunk_start_time := None;
               chunk_end_time := None;
               chunk_text := [];
               prev_word_end := prev_word_end st1 |}
          else st1 in
      {| subtitles := subtitles st';
         chunk_start_time := chunk_start_time st';
         chunk_end_time := chunk_end_time st';
         chunk_text := chunk_text st';
         prev_word_end := word_end |}
  end.

(** [for i, w in enumerate(words_list)], from index [i] on. *)
Fixpoint loop (n i : nat) (ws : list Word) (st : State) : State :=
  match ws with
  | [] => st
  | w :: rest => loop n (S i) rest (step n i w st)
  end.

(** Lines 73-82. *)
Definition init : State :=
  {| subtitles := [];
     chunk_start_time := None;
     chunk_end_time := None;
     chunk_text := [];
     prev_word_end := tzero |}.

(** Lines 160-165: the last chunk, if something is left. *)
Definition flush (st : State) : list Subtitle :=
  if truthy (strip (chunk_text st)) then subtitles st ++ [closed_chunk st]
  else subtitles st.

(** The list [subtitles] after the loop and the final flush. *)
Definition segment (ws : list Word) : list Subtitle :=
  flush (loop (length ws) 0 ws init).

End Segmenter.

Arguments Word T : clear implicits.
Arguments Segment T : clear implicits.
Arguments Subtitle T : clear implicits.
Arguments Config T : clear implicits.
Arguments State T : clear implicits.

(* ================================================================= *)
(** ** Which words went into which chunk

    The source keeps no record of the words behind a chunk.  The
    definitions below replay the loop's decisions ([branch]) and collect,
    next to the state, the words of each closed chunk and of the open one.
    [step_branch] ties [branch] to [step]. *)

Section Trace.

Context {T : Type} `{TimeOps T}.
Variable cfg : Config T.

(** The branch of the loop body a word takes. *)
Inductive Branch :=
| BOpen       (* lines 91-96: no chunk is open *)
| BLength     (* lines 103-113 *)
| BDuration   (* lines 116-124 *)
| BSilence    (* lines 127-136 *)
| BAbsorb     (* lines 138-141, the test of line 145 fails *)
| BPunct.     (* lines 138-155, the test of line 145 holds *)

Definition branch (n i : nat) (w : Word T) (st : State T) : Branch :=
  let trimmed_word := strip (w_word w) in
  match chunk_start_time st with
  | None => BOpen
  | Some cs =>
      if (len (strip (chunk_text st ++ space ++ trimmed_word))
            >? max_chars cfg)%Z then BLength
      else if tgtb (tsub (w_end w) cs) (max_duration cfg) then BDuration
      else if tgeb (tsub (w_start w) (prev_word_end st))
                   (silence_threshold cfg)
              && (len (chunk_text st) >? 0)%Z then BSilence
      else if str_in (last_char trimmed_word) (punctuation_breaks cfg)
              && (Z.of_nat i <? Z.of_nat n - 1)%Z then BPunct
      else BAbsorb
  end.

(** The effect of each branch on the state. *)
Definition open_chunk (w : Word T) (st : State T) : State T :=
  {| subtitles := subtitles st;
     chunk_start_time := Some (w_start w);
     chunk_end_time := Some (w_end w);
     chunk_text := strip (w_word w);
     prev_word_end := w_end w |}.

Definition absorb (w : Word T) (st : State T) : State T :=
  {| subtitles := subtitles st;
     chunk_start_time := chunk_start_time st;
     chunk_end_time := Some (w_end w);
     chunk_text := strip (chunk_text st ++ space ++ strip (w_word w));
     prev_word_end := w_end w |}.

Definition reopen (w : Word T) (st : State T) : State T :=
  {| subtitles := subtitles st ++ [closed_chunk st];
     chunk_start_time := Some (w_start w);
     chunk_end_time := Some (w_end w);
     chunk_text := strip (w_word w);
     prev_word_end := w_end w |}.

Definition absorb_and_close (w : Word T) (st : State T) : State T :=
  {| subtitles := subtitles st ++ [closed_chunk (absorb w st)];
     chunk_start_time := None;
     chunk_end_time := None;
     chunk_text := [];
     prev_word_end := w_end w |}.

Definition run_branch (b : Branch) (w : Word T) (st : State T) : State T :=
  match b with
  | BOpen => open_chunk w st
  | BLength | BDuration | BSilence => reopen w st
  | BAbsorb => absorb w st
  | BPunct => absorb_and_close w st
  end.

(** The words of the closed chunks, in order, and of the open chunk. *)
Record Trace := {
  closed : list (list (Word T));
  current : list (Word T)
}.

Definition tstep (n i : nat) (w : Word T) (st : State T) (tr : Trace)
  : Trace :=
  match branch n i w st with
  | BOpen | BAbsorb =>
      {| closed := closed tr; current := current tr ++ [w] |}
  | BLength | BDuration | BSilence =>
      {| closed := closed tr ++ [current tr]; current := [w] |}
  | BPunct =>
      {| closed := closed tr ++ [current tr ++ [w]]; current := [] |}
  end.

Fixpoint tloop (n i : nat) (ws : list (Word T)) (st : State T) (tr : Trace)
  : State T * Trace :=
  match ws with
  | [] => (st, tr)
  | w :: rest => tloop n (S i) rest (step cfg n i w st) (tstep n i w st tr)
  end.

Definition tflush (st : State T) (tr : Trace) : list (list (Word T)) :=
  if truthy (strip (chunk_text st)) then closed tr ++ [current tr]
  else closed tr.

(** The words of each emitted chunk, chunk by chunk. *)
Definition segment_groups (ws : list (Word T)) : list (list (Word T)) :=
  let (st, tr) :=
    tloop (length ws) 0 ws init {| closed := []; current := [] |} in
  tflush st tr.

(** The configuration with no punctuation character at all. *)
Definition without_punctuation : Config T :=
  {| max_chars := max_chars cfg;
     max_duration := max_duration cfg;
     silence_threshold := silence_threshold cfg;
     punctuation_breaks := [] |}.

(** What a chunk made of the words [g] holds. *)
Definition trimmed (w : Word T) : str := strip (w_word w).

Definition words_text (g : list (Word T)) : str :=
  join space (filter truthy (List.map trimmed g)).

Definition group_start (g : list (Word T)) : option T :=
  option_map (@w_start T) (hd_error g).

Definition group_end (g : list (Word T)) : option T :=
  option_map (@w_end T) (hd_error (rev g)).

Definition chunk_of_group (g : list (Word T)) : Subtitle T :=
  {| s_start := group_start g;
     s_end := group_end g;
     s_text := words_text g |}.

(** The two bounds, on a chunk made of the words [g]. *)
Definition length_ok (g : list (Word T)) : Prop :=
  (len (words_text g) <= max_chars cfg)%Z.

Definition duration_ok (g : list (Word T)) : Prop :=
  match group_start g, group_end g with
  | Some s, Some e => tgtb (tsub e s) (max_duration cfg) = false
  | _, _ => False
  end.

Definition group_ok (g : list (Word T)) : Prop :=
  g <> [] /\ (2 <= length g -> length_ok g /\ duration_ok g).

End Trace.

Arguments Trace T : clear implicits.

(* ================================================================= *)
(** ** The vocabulary of the statements *)

Section Vocabulary.

Context {T : Type} `{TimeOps T}.
Variable cfg : Config T.

(** What the state holds, in terms of the words recorded in the trace. *)
Record Inv (st : State T) (tr : Trace T) : Prop := {
  inv_subs : subtitles st = List.map chunk_of_group (closed tr);
  inv_start : chunk_start_time st = group_start (current tr);
  inv_end : chunk_end_time st = group_end (current tr);
  inv_text : chunk_text st = words_text (current tr);
  inv_closed : Forall (group_ok cfg) (closed tr);
  inv_cur : 2 <= length (current tr) ->
            length_ok cfg (current tr) /\ duration_ok cfg (current tr)
}.

(** [by_start a b]: the word [a] starts no later than [b]. *)
Definition by_start (a b : Word T) : Prop :=
  tleb (w_start a) (w_start b) = true.

(** [start_le c1 c2]: both chunks have a start, that of [c1] is no later. *)
Definition start_le (c1 c2 : Subtitle T) : Prop :=
  exists a b, s_start c1 = Some a /\ s_start c2 = Some b /\ tleb a b = true.

End Vocabulary.

(* ================================================================= *)
(** ** The timestamp formatter: [convert_seconds_to_srt_time]

    The same function in both source files.  [seconds] is read as an exact
    rational: [//], [%], [int], [-] and [*] are the operations on real
    numbers, without binary rounding. *)

Module Formatter.

(** Decimal digits of a natural number, most significant first; [fuel]
    bounds the number of digits. *)
Fixpoint digits_fuel (fuel : nat) (n : N) : str :=
  match fuel with
  | O => []
  | S f =>
      if (n <? 10)%N then [(48 + n)%N]
      else digits_fuel f (n / 10)%N ++ [(48 + n mod 10)%N]
  end.

(** [str(n)] for [n >= 0]: a number has no more decimal than binary
    digits. *)
Definition str_of_N (n : N) : str := digits_fuel (S (N.size_nat n)) n.

(** [f"{z:0w}"] for an [int]: the sign, then zeros up to the width [w],
    then the digits. *)
Definition format_int_zero (width : nat) (z : Z) : str :=
  let sign := if (z <? 0)%Z then [45%N] else [] in
  let digits := str_of_N (Z.abs_N z) in
  sign ++ repeat 48%N (width - length sign - length digits) ++ digits.

(** [int(x)]: rounds toward zero. *)
Definition int_of (x : Q) : Z :=
  if Qle_bool 0 x then Qfloor x else Qceiling x.

(** [x // y] on floats: the floor of the quotient, as a float. *)
Definition floordiv (x y : Q) : Q := inject_Z (Qfloor (x / y)).

(** [x % y] on floats: [x - y * floor(x / y)]. *)
Definition pymod (x y : Q) : Q := (x - y * inject_Z (Qfloor (x / y)))%Q.

Definition convert_seconds_to_srt_time (seconds : Q) : str :=
  let hours := int_of (floordiv seconds 3600) in
  let minutes := int_of (floordiv (pymod seconds 3600) 60) in
  let secs := int_of (pymod seconds 60) in
  let millis := int_of ((seconds - inject_Z (int_of seconds)) * 1000)%Q in
  format_int_zero 2 hours ++ lit ":" ++ format_int_zero 2 minutes
    ++ lit ":" ++ format_int_zero 2 secs ++ lit ","
    ++ format_int_zero 3 millis.

(** Reading a string of decimal digits back. *)
Definition is_digit (c : N) : bool := ((48 <=? c) && (c <=? 57))%N.

Definition decimal_value (s : str) : N :=
  fold_left (fun acc c => (10 * acc + (c - 48))%N) s 0%N.

Local Open Scope N_scope.



Close Scope N_scope.

End Formatter.

(* ================================================================= *)
(** ** The whole call: aggregation, early return, segmentation, output *)

Module Call.

Import Formatter.

(** The recognizer's result: [result["segments"]]. *)
Record Result := { segments : list (Segment Q) }.

Inductive Exn :=
| TypeError.   (* [None // 3600] in the formatter *)

(** How a call ends. [Returned tt] is a return of [None]. *)
Inductive Outcome :=
| Returned (v : unit)
| Raised (e : Exn).

(** What a call did: the lines printed, the files written (path and
    content) and how it ended. *)
Record Run := {
  printed : list str;
  files : list (str * str);
  outcome : Outcome
}.

(** The message of lines 69-70. *)
Definition no_words_message : str :=
  lit "No se encontraron 'word timestamps' en el resultado. Aseg"
    ++ [250%N] ++ lit "rate de usar word_timestamps=True.".

Definition newline : str := [10%N].

(** Lines 169-176: the records written to the file so far and how the
    loop ends.  A time stamp that is [None] makes the formatter raise. *)
Fixpoint write_subtitles (i : Z) (subs : list (Subtitle Q)) (f : str)
  : str * Outcome :=
  match subs with
  | [] => (f, Returned tt)
  | sub :: rest =>
      match s_start sub with
      | None => (f, Raised TypeError)
      | Some s =>
          let start_srt := convert_seconds_to_srt_time s in
          match s_end sub with
          | None => (f, Raised TypeError)
          | Some e =>
              let end_srt := convert_seconds_to_srt_time e in
              let text := s_text sub in
              write_subtitles (i + 1) rest
                (f ++ (format_int_zero 0 i ++ newline)
                   ++ (start_srt ++ lit " --> " ++ end_srt ++ newline)
                   ++ (text ++ newline ++ newline))
          end
      end
  end.

Definition create_srt_with_natural_breaks
  (result : Result) (srt_path : str) (cfg : Config Q) : Run :=
  let words := words_list (segments result) in
  match words with
  | [] =>
      {| printed := [no_words_message]; files := [];
         outcome := Returned tt |}
  | _ :: _ =>
      let subtitles := segment cfg words in
      let (f, o) := write_subtitles 1 subtitles [] in
      {| printed := []; files := [(srt_path, f)]; outcome := o |}
  end.

End Call.

(* ================================================================= *)
(** ** Example inputs *)

Module Scenario.

(** The default values of the keyword parameters (lines 34-37). *)
Definition default_config : Config Q :=
  {| max_chars := 60;
     max_duration := 5%Q;
     silence_threshold := (6 # 10)%Q;
     punctuation_breaks := [lit "."; lit "!"; lit "?"] |}.

Definition mk_word (text : str) (s e : Q) : Word Q :=
  {| w_word := text; w_start := s; w_end := e |}.

Definition mk_sub (s e : Q) (text : str) : Subtitle Q :=
  {| s_start := Some s; s_end := Some e; s_text := text |}.

(** Scenario A of the specification; the recognizer puts a space in front
    of a word. *)
Definition adios : str := lit "Adi" ++ [243%N] ++ lit "s".

Definition words_a : list (Word Q) :=
  [ mk_word (lit " Hola") 0%Q (4 # 10)%Q;
    mk_word (lit " mundo.") (4 # 10)%Q (9 # 10)%Q;
    mk_word (32%N :: adios) 2%Q (23 # 10)%Q ].

(** Scenario B: one word of 70 characters. *)
Definition long_word : Word Q :=
  mk_word (repeat 97%N 70) 0%Q (1 # 2)%Q.

(** A word that lasts eight seconds. *)
Definition slow_word : Word Q := mk_word (lit "Eeeeh") 1%Q 9%Q.

(** The same words on IEEE binary64 time stamps. *)
Definition float_config : Config float :=
  {| max_chars := 60;
     max_duration := 5%float;
     silence_threshold := 0x1.3333333333333p-1%float;   (* 0.6 *)
     punctuation_breaks := [lit "."; lit "!"; lit "?"] |}.

Definition float_words_a : list (Word float) :=
  [ {| w_word := lit " Hola"; w_start := 0%float;
       w_end := 0x1.999999999999ap-2%float |};            (* 0.4 *)
    {| w_word := lit " mundo."; w_start := 0x1.999999999999ap-2%float;
       w_end := 0x1.ccccccccccccdp-1%float |};            (* 0.9 *)
    {| w_word := 32%N :: adios; w_start := 2%float;
       w_end := 0x1.2666666666666p+1%float |} ].          (* 2.3 *)

End Scenario.

Module CallExamples.

Import Call.

(** No segment has words. *)
Definition no_words : Result :=
  {| segments := [ {| seg_words := None |}; {| seg_words := Some [] |} ] |}.

(** One word of white space: there are words, but no chunk. *)
Definition blank_words : Result :=
  {| segments :=
       [ {| seg_words := Some [Scenario.mk_word (lit "  ") 0%Q 1%Q] |} ] |}.

Definition result_a : Result :=
  {| segments :=
       [ {| seg_words := None |}; {| seg_words := Some Scenario.words_a |} ] |}.

(** A configuration the specification calls invalid. *)
Definition bad_config : Config Q :=
  {| max_chars := 0;
     max_duration := (-1)%Q;
     silence_threshold := (-1)%Q;
     punctuation_breaks := [lit "."; lit "!"; lit "?"] |}.

Definition path : str := lit "audio.srt".

End CallExamples.

Module Instances.

Import Scenario.

(** At most ten characters per chunk. *)
Definition tight_config : Config Q :=
  {| max_chars := 10;
     max_duration := 5%Q;
     silence_threshold := (6 # 10)%Q;
     punctuation_breaks := [lit "."; lit "!"; lit "?"] |}.

Definition hola : Word Q := mk_word (lit " Hola") 0%Q (4 # 10)%Q.
Definition mundo : Word Q := mk_word (lit " mundo.") (4 # 10)%Q (9 # 10)%Q.
Definition blank : Word Q := mk_word (lit "  ") (9 # 10)%Q 1%Q.
Definition last_one : Word Q := mk_word (32%N :: adios) 2%Q (23 # 10)%Q.

(** The state after [hola], in a list of three words. *)
Definition after_hola (cfg : Config Q) : State Q := loop cfg 3 0 [hola] init.

End Instances.

(* ================================================================= *)
(** ** The first variant: [create_srt] of [src/Transcribir.py] *)

Module Transcribir.

Import Formatter Call.

(** One entry of Whisper's [segments] list, with the three keys
    [create_srt] reads. *)
Record WSegment := {
  seg_start : Q;    (* segment['start'] *)
  seg_end : Q;      (* segment['end'] *)
  seg_text : str    (* segment['text'] *)
}.

(** Lines 53-61: the loop over [enumerate(segments, start=1)], from index
    [i] on, with the text written so far. *)
Fixpoint write_segments (i : Z) (segments : list WSegment) (f : str) : str :=
  match segments with
  | [] => f
  | segment :: rest =>
      let start_time := convert_seconds_to_srt_time (seg_start segment) in
      let end_time := convert_seconds_to_srt_time (seg_end segment) in
      let text := strip (seg_text segment) in
      write_segments (i + 1) rest
        (f ++ (format_int_zero 0 i ++ newline)
           ++ (start_time ++ lit " --> " ++ end_time ++ newline)
           ++ (text ++ newline ++ newline))
  end.

(** Lines 42-61. *)
Definition create_srt (segments : list WSegment) (srt_path : str) : Run :=
  {| printed := [];
     files := [(srt_path, write_segments 1 segments [])];
     outcome := Returned tt |}.

End Transcribir.

(* ================================================================= *)
(** ** Reading a subtitle file back

    The source only writes.  The reader below is the vocabulary of the
    round-trip statements: it reads what the format prescribes, a record
    being the index, the two time stamps, one line of text and an empty
    line. *)

Module SrtRead.

Import Formatter.

Definition bind {A B} (x : option A) (f : A -> option B) : option B :=
  match x with Some a => f a | None => None end.

(** The decimal digits in front of a string, and what follows them. *)
Fixpoint span_digits (s : str) : str * str :=
  match s with
  | [] => ([], [])
  | c :: r =>
      if is_digit c then let (d, rest) := span_digits r in (c :: d, rest)
      else ([], s)
  end.

(** One or more digits, read as a number. *)
Definition read_number (s : str) : option (Z * str) :=
  let (d, rest) := span_digits s in
  match d with
  | [] => None
  | _ :: _ => Some (Z.of_N (decimal_value d), rest)
  end.

(** The string [p] in front of [s]. *)
Fixpoint read_lit (p s : str) : option str :=
  match p with
  | [] => Some s
  | c :: p' =>
      match s with
      | [] => None
      | x :: r => if (x =? c)%N then read_lit p' r else None
      end
  end.

(** [HH:MM:SS,mmm] in front of a string, as milliseconds. *)
Definition read_time (s : str) : option (Z * str) :=
  bind (read_number s) (fun '(h, s1) =>
  bind (read_lit (lit ":") s1) (fun s2 =>
  bind (read_number s2) (fun '(m, s3) =>
  bind (read_lit (lit ":") s3) (fun s4 =>
  bind (read_number s4) (fun '(sec, s5) =>
  bind (read_lit (lit ",") s5) (fun s6 =>
  bind (read_number s6) (fun '(ms, s7) =>
  Some (((h * 60 + m) * 60 + sec) * 1000 + ms, s7)%Z))))))).

(** A whole string that is one time stamp. *)
Definition time_millis (s : str) : option Z :=
  match read_time s with
  | Some (ms, []) => Some ms
  | _ => None
  end.






(** The whole milliseconds of a time. *)
Definition millis (seconds : Q) : Z := Qfloor (seconds * 1000).


End SrtRead.

(* ================================================================= *)
(** ** Records of a subtitle file *)

Module SrtRecords.

Import Formatter Call Transcribir SrtRead.

(** The text [create_srt] writes for the segment with index [i]. *)
Definition block (i : Z) (segment : WSegment) : str :=
  (format_int_zero 0 i ++ newline)
    ++ (convert_seconds_to_srt_time (seg_start segment) ++ lit " --> "
          ++ convert_seconds_to_srt_time (seg_end segment) ++ newline)
    ++ (strip (seg_text segment) ++ newline ++ newline).

Fixpoint blocks (i : Z) (segments : list WSegment) : str :=
  match segments with
  | [] => []
  | segment :: rest => block i segment ++ blocks (i + 1) rest
  end.



(** A chunk of the second variant and a segment of the first with the
    same start, end and text. *)
Definition same_record (c : Subtitle Q) (s : WSegment) : Prop :=
  s_start c = Some (seg_start s) /\ s_end c = Some (seg_end s)
  /\ s_text c = seg_text s.


End SrtRecords.

(* ================================================================= *)
(** ** What stays inside a chunk *)

Section ChunkVocabulary.

Context {T : Type} `{TimeOps T}.
Variable cfg : Config T.

(** Line 145, first test: the word ends in a character of
    [punctuation_breaks]. *)
Definition ends_sentence (w : Word T) : bool :=
  str_in (last_char (trimmed w)) (punctuation_breaks cfg).

(** Between two neighbours of the group, once the words before have given
    some text, the pause is below [silence_threshold]. *)
Definition no_silence_inside (g : list (Word T)) : Prop :=
  forall k a b,
    nth_error g k = Some a -> nth_error g (S k) = Some b ->
    words_text (firstn (S k) g) <> [] ->
    tgeb (tsub (w_start b) (w_end a)) (silence_threshold cfg) = false.

(** No word strictly between the first and the last of the group ends in
    a punctuation character. *)
Definition punctuation_at_ends (g : list (Word T)) : Prop :=
  forall k a,
    0 < k -> S k < length g -> nth_error g k = Some a ->
    ends_sentence a = false.

(** The invariant of the loop, with the index [i] of the next word in a
    list of [n] words. *)
Record Inv2 (n i : nat) (st : State T) (tr : Trace T) : Prop := {
  inv2_inv : Inv cfg st tr;
  inv2_prev : current tr <> [] ->
              group_end (current tr) = Some (prev_word_end st);
  inv2_quiet_closed : Forall no_silence_inside (closed tr);
  inv2_quiet_cur : no_silence_inside (current tr);
  inv2_punct_closed : Forall punctuation_at_ends (closed tr);
  inv2_punct_cur :
    forall k a, 0 < k -> nth_error (current tr) k = Some a ->
      ends_sentence a = true -> n <= i /\ S k = length (current tr)
}.

(** [then_word a b]: the word [b] starts when [a] has ended, or later. *)
Definition then_word (a b : Word T) : Prop :=
  tleb (w_end a) (w_start b) = true.

(** [then_chunk c1 c2]: the chunk [c2] starts when [c1] has ended, or
    later. *)
Definition then_chunk (c1 c2 : Subtitle T) : Prop :=
  exists e s, s_end c1 = Some e /\ s_start c2 = Some s /\ tleb e s = true.

(** The trimmed texts of the words that are not blank. *)
Definition spoken (g : list (Word T)) : list str :=
  filter truthy (List.map trimmed g).

(** The chunk a single word makes. *)
Definition chunk_of_word (w : Word T) : Subtitle T :=
  {| s_start := Some (w_start w);
     s_end := Some (w_end w);
     s_text := strip (w_word w) |}.

End ChunkVocabulary.

(* ================================================================= *)
(** ** More example inputs *)

Module Examples2.

Import Transcribir.


(** The two chunks of scenario A, as words. *)
Definition group_a : list (Word Q) := [Instances.hola; Instances.mundo].

End Examples2.

(* ================================================================= *)
(** ** Facts about strings *)

Module PyStrFacts.

Lemma lstrip_headok s : headok s = true -> lstrip s = s.
Proof.
  destruct s as [|c r]; simpl; [discriminate|].
  destruct (isspace c); [discriminate | reflexivity].
Qed.

Lemma lstrip_result s : lstrip s = [] \/ headok (lstrip s) = true.
Proof.
  induction s as [|c r IH]; simpl; [now left|].
  destruct (isspace c) eqn:E; [exact IH|].
  right; simpl; now rewrite E.
Qed.

Lemma headok_app s t : headok s = true -> headok (s ++ t) = true.
Proof. destruct s; simpl; [discriminate | auto]. Qed.

Lemma lstrip_app_headok s t : headok s = true -> lstrip (s ++ t) = s ++ t.
Proof. intros H; apply lstrip_headok, headok_app, H. Qed.

Lemma rstrip_lastok s : headok (rev s) = true -> rstrip s = s.
Proof.
  intros H; unfold rstrip; rewrite (lstrip_headok _ H); apply rev_involutive.
Qed.

Lemma rstrip_app_lastok s t :
  headok (rev t) = true -> rstrip (s ++ t) = s ++ t.
Proof.
  intros H; apply rstrip_lastok; rewrite rev_app_distr; now apply headok_app.
Qed.

(** [lstrip] drops a prefix of white space. *)
Lemma lstrip_split s :
  exists sp, s = sp ++ lstrip s /\ forallb isspace sp = true.
Proof.
  induction s as [|c r (sp & E & F)]; simpl.
  - now exists [].
  - destruct (isspace c) eqn:Ec.
    + exists (c :: sp); simpl; rewrite Ec, F.
      split; [now f_equal | reflexivity].
    + now exists [].
Qed.

Lemma rstrip_split s :
  exists sp, s = rstrip s ++ sp /\ forallb isspace sp = true.
Proof.
  destruct (lstrip_split (rev s)) as (sp & E & F).
  exists (rev sp); split.
  - unfold rstrip; rewrite <- rev_app_distr, <- E.
    symmetry; apply rev_involutive.
  - rewrite forallb_forall in *; intros x Hx; apply F; now apply in_rev.
Qed.

Lemma rstrip_headok s :
  headok s = true -> headok (rstrip s) = true.
Proof.
  intros H; destruct (rstrip_split s) as (sp & E & F).
  destruct (rstrip s) as [|c r] eqn:R.
  - simpl in E; subst s; destruct sp as [|c r]; simpl in *; [discriminate|].
    apply andb_prop in F; destruct F as [F _]; now rewrite F in H.
  - rewrite E in H; exact H.
Qed.

Lemma strip_stripped s : stripped (strip s).
Proof.
  unfold strip; destruct (lstrip_result s) as [E|H].
  - rewrite E; now left.
  - right; split; [now apply rstrip_headok|].
    unfold rstrip; rewrite rev_involutive.
    destruct (lstrip_result (rev (lstrip s))) as [E|H']; [|exact H'].
    exfalso; destruct (lstrip_split (rev (lstrip s))) as (sp & E1 & F).
    rewrite E, app_nil_r in E1.
    assert (E2 : lstrip s = rev sp) by (now rewrite <- E1, rev_involutive).
    rewrite E2 in H.
    destruct (rev sp) as [|c r] eqn:R; simpl in H; [discriminate|].
    rewrite forallb_forall in F.
    rewrite (F c) in H; [discriminate|].
    apply in_rev; rewrite R; now left.
Qed.

Lemma strip_of_stripped s : stripped s -> strip s = s.
Proof.
  intros [->|[H1 H2]]; [reflexivity|].
  unfold strip; rewrite (lstrip_headok _ H1); now apply rstrip_lastok.
Qed.

Lemma strip_idem s : strip (strip s) = strip s.
Proof. apply strip_of_stripped, strip_stripped. Qed.

Lemma strip_nil : strip [] = [].
Proof. reflexivity. Qed.

Lemma stripped_nil : stripped [].
Proof. now left. Qed.

Lemma isspace_space : isspace 32%N = true.
Proof. reflexivity. Qed.

Lemma strip_glue_ne a b :
  headok a = true -> headok (rev a) = true -> stripped b ->
  strip (a ++ space ++ b) =
    match b with [] => a | _ :: _ => a ++ space ++ b end.
Proof.
  intros Ha1 Ha2 Hb; destruct b as [|cb rb].
  - unfold strip; rewrite lstrip_app_headok by exact Ha1.
    unfold rstrip, space; rewrite app_nil_r, rev_unit.
    change (lstrip (32%N :: rev a)) with (lstrip (rev a)).
    rewrite (lstrip_headok _ Ha2); apply rev_involutive.
  - destruct Hb as [Hb|[Hb1 Hb2]]; [discriminate|].
    unfold strip; rewrite lstrip_app_headok by exact Ha1.
    rewrite app_assoc; now apply rstrip_app_lastok.
Qed.

(** [(a + " " + b).strip()] for stripped [a] and [b], by emptiness. *)
Lemma strip_glue a b :
  stripped a -> stripped b ->
  strip (a ++ space ++ b) =
    match a, b with
    | [], _ => b
    | _, [] => a
    | _, _ => a ++ space ++ b
    end.
Proof.
  intros Ha Hb; destruct a as [|ca ra].
  - simpl; unfold strip; simpl; fold (strip b); now apply strip_of_stripped.
  - destruct Ha as [Ha|[Ha1 Ha2]]; [discriminate|].
    now rewrite strip_glue_ne.
Qed.

(** *** Facts about [join] *)

Lemma join_cons sep x r :
  r <> [] -> join sep (x :: r) = x ++ sep ++ join sep r.
Proof. intros H; destruct r; [congruence | reflexivity]. Qed.

Lemma join_snoc sep l x :
  l <> [] -> join sep (l ++ [x]) = join sep l ++ sep ++ x.
Proof.
  induction l as [|y r IH]; [congruence|]; intros _.
  destruct r as [|z r]; [reflexivity|].
  change ((y :: z :: r) ++ [x]) with (y :: ((z :: r) ++ [x])).
  rewrite (@join_cons sep y ((z :: r) ++ [x])) by (simpl; discriminate).
  rewrite IH by discriminate.
  rewrite (@join_cons sep y (z :: r)) by discriminate.
  now rewrite <- !app_assoc.
Qed.

Lemma join_app sep l1 l2 :
  l1 <> [] -> l2 <> [] ->
  join sep (l1 ++ l2) = join sep l1 ++ sep ++ join sep l2.
Proof.
  induction l1 as [|y r IH]; [congruence|]; intros _ H2.
  destruct r as [|z r].
  - simpl; destruct l2; [congruence | reflexivity].
  - change ((y :: z :: r) ++ l2) with (y :: ((z :: r) ++ l2)).
    rewrite (@join_cons sep y ((z :: r) ++ l2)) by (simpl; discriminate).
    rewrite IH by (discriminate || exact H2).
    rewrite (@join_cons sep y (z :: r)) by discriminate.
    now rewrite <- !app_assoc.
Qed.

(** Joining the joined groups is joining all the pieces, when no group is
    empty. *)
Lemma join_concat sep (gs : list (list str)) :
  Forall (fun g => g <> []) gs ->
  join sep (List.map (join sep) gs) = join sep (concat gs).
Proof.
  induction 1 as [|g gs Hg Hgs IH]; [reflexivity|].
  destruct gs as [|g' gs'].
  - simpl; now rewrite app_nil_r.
  - change (List.map (join sep) (g :: g' :: gs'))
      with (join sep g :: List.map (join sep) (g' :: gs')).
    rewrite (@join_cons sep (join sep g)) by discriminate.
    rewrite IH.
    change (concat (g :: g' :: gs')) with (g ++ concat (g' :: gs')).
    rewrite join_app; [reflexivity | exact Hg|].
    inversion Hgs as [|? ? Hg' _]; subst.
    destruct g'; [congruence | discriminate].
Qed.


End PyStrFacts.

Import PyStrFacts.

(* ================================================================= *)
(** ** Facts about the loop *)

Section LoopFacts.

Context {T : Type} `{TimeOps T}.
Variable cfg : Config T.

(** The loop body does what the branch it takes says. *)
Lemma step_branch n i w st :
  step cfg n i w st = run_branch (branch cfg n i w st) w st.
Proof.
  unfold step, branch.
  destruct (chunk_start_time st) as [cs|] eqn:Ecs; [|reflexivity].
  destruct (_ >? _)%Z; [reflexivity|].
  destruct (tgtb _ _); [reflexivity|].
  destruct (_ && _); [reflexivity|].
  destruct (_ && _);
    unfold run_branch, absorb_and_close, absorb, closed_chunk; simpl;
    rewrite ?Ecs; reflexivity.
Qed.

Lemma loop_app n i ws1 ws2 st :
  loop cfg n i (ws1 ++ ws2) st =
  loop cfg n (i + length ws1) ws2 (loop cfg n i ws1 st).
Proof.
  revert i st; induction ws1 as [|w r IH]; intros i st; simpl.
  - now rewrite Nat.add_0_r.
  - rewrite IH; f_equal; lia.
Qed.

Lemma tloop_fst n i ws st tr :
  fst (tloop cfg n i ws st tr) = loop cfg n i ws st.
Proof.
  revert i st tr; induction ws as [|w r IH]; intros; simpl; [reflexivity|].
  apply IH.
Qed.

(** *** The text of a group of words *)

Lemma ok_nonempty s : ok s -> s <> [].
Proof. intros [E _] ->; discriminate. Qed.

Lemma join_ok l : l <> [] -> Forall ok l -> ok (join space l).
Proof.
  induction l as [|x r IH]; [congruence|]; intros _ F.
  inversion F as [|? ? Hx Hr]; subst.
  destruct r as [|y r]; [exact Hx|].
  rewrite join_cons by discriminate.
  destruct (IH ltac:(discriminate) Hr) as [_ I2].
  destruct Hx as [X1 _]; split.
  - now apply headok_app.
  - rewrite !rev_app_distr, <- app_assoc; now apply headok_app.
Qed.

Lemma trimmed_words_ok (g : list (Word T)) :
  Forall ok (filter truthy (List.map trimmed g)).
Proof.
  apply Forall_forall; intros x Hx; apply filter_In in Hx.
  destruct Hx as [Hin Ht]; apply in_map_iff in Hin.
  destruct Hin as (w & <- & _).
  destruct (strip_stripped (w_word w)) as [E|E]; [|exact E].
  unfold trimmed in Ht; rewrite E in Ht; discriminate.
Qed.

Lemma words_text_stripped (g : list (Word T)) : stripped (words_text g).
Proof.
  unfold words_text.
  destruct (filter truthy (List.map trimmed g)) as [|x r] eqn:E; [now left|].
  right; apply join_ok; [discriminate|].
  rewrite <- E; apply trimmed_words_ok.
Qed.

Lemma words_text_nil_iff (g : list (Word T)) :
  words_text g = [] <-> Forall (fun w => trimmed w = []) g.
Proof.
  unfold words_text; split.
  - intros E.
    destruct (filter truthy (List.map trimmed g)) as [|x r] eqn:F.
    + apply Forall_forall; intros w Hw.
      destruct (trimmed w) as [|c s] eqn:Ew; [reflexivity|].
      assert (Hin : In (trimmed w) (filter truthy (List.map trimmed g))).
      { apply filter_In; split; [now apply in_map | now rewrite Ew]. }
      rewrite F in Hin; destruct Hin.
    + exfalso; refine (ok_nonempty _ E).
      apply join_ok; [discriminate|]; rewrite <- F; apply trimmed_words_ok.
  - intros F; induction F as [|w r Hw _ IH]; [reflexivity|].
    simpl; rewrite Hw; exact IH.
Qed.

(** Absorbing a word, line 99 and line 141. *)
Lemma words_text_snoc (g : list (Word T)) w :
  words_text (g ++ [w]) = strip (words_text g ++ space ++ trimmed w).
Proof.
  rewrite strip_glue by (apply words_text_stripped || apply strip_stripped).
  unfold words_text at 1; rewrite map_app, filter_app; simpl.
  pose proof (trimmed_words_ok g) as Hok.
  fold (words_text g).
  unfold words_text in *.
  destruct (trimmed w) as [|c s] eqn:Ew; simpl.
  - rewrite app_nil_r.
    now destruct (join space (filter truthy (List.map trimmed g))).
  - destruct (filter truthy (List.map trimmed g)) as [|x r] eqn:F.
    + reflexivity.
    + rewrite join_snoc by discriminate.
      destruct (join space (x :: r)) eqn:J; [|reflexivity].
      exfalso; refine (ok_nonempty _ J).
      apply join_ok; [discriminate | exact Hok].
Qed.

Lemma words_text_single (w : Word T) : words_text [w] = trimmed w.
Proof.
  unfold words_text; simpl; now destruct (trimmed w).
Qed.

Lemma group_end_snoc (g : list (Word T)) w :
  group_end (g ++ [w]) = Some (w_end w).
Proof. unfold group_end; now rewrite rev_unit. Qed.

Lemma group_start_snoc (g : list (Word T)) w :
  group_start (g ++ [w]) =
  match group_start g with Some s => Some s | None => Some (w_start w) end.
Proof. now destruct g. Qed.

Lemma group_start_none (g : list (Word T)) : group_start g = None -> g = [].
Proof. now destruct g. Qed.

End LoopFacts.

(* ================================================================= *)
(** ** The invariant of the loop *)

Section Invariant.

Context {T : Type} `{TimeOps T}.
Variable cfg : Config T.

Lemma init_inv : Inv cfg init {| closed := []; current := [] |}.
Proof.
  constructor; simpl; try reflexivity; [constructor | lia].
Qed.

(** What the tests of the loop body say about the branch taken. *)
Lemma branch_facts n i w st :
  match branch cfg n i w st with
  | BOpen => chunk_start_time st = None
  | BLength | BDuration | BSilence =>
      exists cs, chunk_start_time st = Some cs
  | BAbsorb | BPunct =>
      exists cs, chunk_start_time st = Some cs
        /\ (len (strip (chunk_text st ++ space ++ trimmed w))
              <= max_chars cfg)%Z
        /\ tgtb (tsub (w_end w) cs) (max_duration cfg) = false
  end.
Proof.
  unfold branch.
  destruct (chunk_start_time st) as [cs|]; [|reflexivity].
  destruct (_ >? _)%Z eqn:EL; [now exists cs|].
  destruct (tgtb _ _) eqn:ED; [now exists cs|].
  destruct (_ && _); [now exists cs|].
  assert (len (strip (chunk_text st ++ space ++ trimmed w))
            <= max_chars cfg)%Z by (unfold trimmed; lia).
  destruct (_ && _); now exists cs.
Qed.

Lemma closed_chunk_of_group st tr :
  Inv cfg st tr -> closed_chunk st = chunk_of_group (current tr).
Proof.
  intros I; unfold closed_chunk, chunk_of_group.
  rewrite (inv_start I), (inv_end I), (inv_text I).
  now rewrite strip_of_stripped by apply words_text_stripped.
Qed.

Lemma absorbed_bounds st tr w cs :
  Inv cfg st tr ->
  chunk_start_time st = Some cs ->
  (len (strip (chunk_text st ++ space ++ trimmed w)) <= max_chars cfg)%Z ->
  tgtb (tsub (w_end w) cs) (max_duration cfg) = false ->
  length_ok cfg (current tr ++ [w]) /\ duration_ok cfg (current tr ++ [w]).
Proof.
  intros I Ecs HL HD; split.
  - unfold length_ok; now rewrite words_text_snoc, <- (inv_text I).
  - unfold duration_ok.
    rewrite group_start_snoc, group_end_snoc, <- (inv_start I), Ecs.
    exact HD.
Qed.

Lemma reopen_inv w st tr cs :
  Inv cfg st tr -> chunk_start_time st = Some cs ->
  Inv cfg (reopen w st)
    {| closed := closed tr ++ [current tr]; current := [w] |}.
Proof.
  intros I Ecs; constructor; simpl; try reflexivity.
  - rewrite map_app, <- (inv_subs I); simpl.
    now rewrite (closed_chunk_of_group I).
  - now rewrite words_text_single.
  - apply Forall_app; split; [apply (inv_closed I)|].
    constructor; [|constructor].
    split; [|apply (inv_cur I)].
    intros E; rewrite (inv_start I), E in Ecs; discriminate.
  - lia.
Qed.

Lemma step_inv n i w st tr :
  Inv cfg st tr -> Inv cfg (step cfg n i w st) (tstep cfg n i w st tr).
Proof.
  intros I; rewrite step_branch; unfold tstep.
  pose proof (branch_facts n i w st) as B.
  destruct (branch cfg n i w st); simpl in *.
  - (* no chunk open *)
    assert (E : current tr = []).
    { apply group_start_none; now rewrite <- (inv_start I). }
    rewrite E; constructor; simpl; try reflexivity.
    + apply (inv_subs I).
    + now rewrite words_text_single.
    + apply (inv_closed I).
    + lia.
  - destruct B as [cs Ecs]; apply reopen_inv with cs; assumption.
  - destruct B as [cs Ecs]; apply reopen_inv with cs; assumption.
  - destruct B as [cs Ecs]; apply reopen_inv with cs; assumption.
  - (* absorbed *)
    destruct B as (cs & Ecs & HL & HD).
    constructor; simpl.
    + apply (inv_subs I).
    + now rewrite group_start_snoc, <- (inv_start I), Ecs.
    + now rewrite group_end_snoc.
    + now rewrite words_text_snoc, <- (inv_text I).
    + apply (inv_closed I).
    + intros _; now apply absorbed_bounds with st cs.
  - (* absorbed, then closed by punctuation *)
    destruct B as (cs & Ecs & HL & HD).
    constructor; simpl; try reflexivity.
    + rewrite map_app, <- (inv_subs I); simpl; do 2 f_equal.
      unfold closed_chunk, chunk_of_group, absorb; simpl.
      rewrite strip_idem, group_start_snoc, group_end_snoc.
      rewrite words_text_snoc, <- (inv_start I), <- (inv_text I), Ecs.
      reflexivity.
    + apply Forall_app; split; [apply (inv_closed I)|].
      constructor; [|constructor].
      split; [now destruct (current tr) | intros _].
      now apply absorbed_bounds with st cs.
    + lia.
Qed.

End Invariant.

(* ================================================================= *)
(** ** Chunks and their words *)

Section Structure.

Context {T : Type} `{TimeOps T}.
Variable cfg : Config T.

(** Every word goes to the open chunk or opens the next one. *)
Lemma tstep_words n i w st (tr : Trace T) :
  concat (closed (tstep cfg n i w st tr)) ++ current (tstep cfg n i w st tr)
  = (concat (closed tr) ++ current tr) ++ [w].
Proof.
  unfold tstep; destruct (branch cfg n i w st); simpl;
    rewrite ?concat_app; simpl; rewrite ?app_nil_r, <- ?app_assoc;
    reflexivity.
Qed.

Lemma tloop_inv n i ws st tr :
  Inv cfg st tr ->
  Inv cfg (fst (tloop cfg n i ws st tr)) (snd (tloop cfg n i ws st tr)).
Proof.
  revert i st tr; induction ws as [|w r IH]; intros i st tr I; simpl.
  - exact I.
  - apply IH, step_inv, I.
Qed.

Lemma tloop_words n i ws st tr :
  concat (closed (snd (tloop cfg n i ws st tr)))
    ++ current (snd (tloop cfg n i ws st tr))
  = (concat (closed tr) ++ current tr) ++ ws.
Proof.
  revert i st tr; induction ws as [|w r IH]; intros i st tr; simpl.
  - now rewrite app_nil_r.
  - rewrite IH, tstep_words, <- !app_assoc; reflexivity.
Qed.

(** The emitted chunks are the chunks of consecutive groups of words; a
    group of two or more words keeps both bounds; only words left at the
    end whose text trims to nothing belong to no chunk. *)
Theorem segment_structure ws :
  segment cfg ws = List.map chunk_of_group (segment_groups cfg ws)
  /\ Forall (group_ok cfg) (segment_groups cfg ws)
  /\ exists rest,
       ws = concat (segment_groups cfg ws) ++ rest
       /\ Forall (fun w => trimmed w = []) rest.
Proof.
  unfold segment, segment_groups.
  pose proof (@tloop_inv (length ws) 0 ws _ _ (init_inv cfg)) as I.
  pose proof (tloop_words (length ws) 0 ws init
                {| closed := []; current := [] |}) as W.
  pose proof (tloop_fst cfg (length ws) 0 ws init
                {| closed := []; current := [] |}) as F.
  destruct (tloop cfg (length ws) 0 ws init _) as [st tr].
  simpl in *; subst st.
  set (st := loop cfg (length ws) 0 ws init) in *.
  unfold flush, tflush.
  assert (Et : strip (chunk_text st) = words_text (current tr)).
  { rewrite (inv_text I); apply strip_of_stripped, words_text_stripped. }
  destruct (truthy (strip (chunk_text st))) eqn:Tr.
  - split; [|split].
    + rewrite map_app, <- (inv_subs I); simpl.
      now rewrite (closed_chunk_of_group I).
    + apply Forall_app; split; [apply (inv_closed I)|].
      constructor; [|constructor].
      split; [|apply (inv_cur I)].
      intros E; rewrite Et, E in Tr; discriminate.
    + exists []; split; [|constructor].
      rewrite concat_app; simpl; now rewrite !app_nil_r, W.
  - split; [|split].
    + apply (inv_subs I).
    + apply (inv_closed I).
    + exists (current tr); split; [now rewrite W|].
      apply words_text_nil_iff; rewrite <- Et.
      now destruct (strip (chunk_text st)).
Qed.

(** The time stamps written to the file are never [None]. *)
Lemma segment_times ws c :
  In c (segment cfg ws) ->
  exists g w1 w2,
    In g (segment_groups cfg ws) /\ c = chunk_of_group g
    /\ hd_error g = Some w1 /\ hd_error (rev g) = Some w2
    /\ s_start c = Some (w_start w1) /\ s_end c = Some (w_end w2).
Proof.
  destruct (segment_structure ws) as (E & F & _).
  rewrite E; intros Hc; apply in_map_iff in Hc.
  destruct Hc as (g & <- & Hg).
  rewrite Forall_forall in F; destruct (F g Hg) as [Hne _].
  destruct g as [|w1 r]; [congruence|].
  destruct (rev (w1 :: r)) as [|w2 r'] eqn:R.
  { apply (f_equal (@length _)) in R; rewrite length_rev in R; discriminate. }
  exists (w1 :: r), w1, w2; repeat split; try assumption; try reflexivity.
  all: unfold chunk_of_group, group_end; cbn [s_end]; now rewrite R.
Qed.

End Structure.

(* ================================================================= *)
(** ** Scenario A, evaluated *)

(** Scenario A with the default parameters: two chunks, ["Hola mundo."]
    from 0.0 to 0.9, closed by the full stop, and the last word from 2.0 to
    2.3, emitted by the flush. *)
Example scenario_a_exact :
  segment Scenario.default_config Scenario.words_a =
  [ Scenario.mk_sub 0%Q (9 # 10)%Q (lit "Hola mundo.");
    Scenario.mk_sub 2%Q (23 # 10)%Q Scenario.adios ].
Proof. vm_compute. reflexivity. Qed.

(** The same on binary64 time stamps. *)
Example scenario_a_binary64 :
  segment Scenario.float_config Scenario.float_words_a =
  [ {| s_start := Some 0%float;
       s_end := Some 0x1.ccccccccccccdp-1%float;
       s_text := lit "Hola mundo." |};
    {| s_start := Some 2%float;
       s_end := Some 0x1.2666666666666p+1%float;
       s_text := Scenario.adios |} ].
Proof. vm_compute. reflexivity. Qed.

(* ================================================================= *)
(** ** The claims about the segmenter *)

Section SegmenterClaims.

Context {T : Type} `{TimeOps T}.
Variable cfg : Config T.

Lemma filter_truthy_id (l : list str) :
  Forall (fun s => s <> []) l -> filter truthy l = l.
Proof.
  induction 1 as [|x r Hx _ IH]; [reflexivity|].
  simpl; rewrite IH; now destruct x.
Qed.

(** C1. When the text of every word trims to a non-empty string, the texts
    of the emitted chunks, joined by single spaces, are the trimmed texts of
    all the words joined by single spaces; the chunks are the chunks of
    consecutive groups of words whose concatenation is the whole input, so
    that no word is left out or used twice. *)
Theorem C1_completeness (ws : list (Word T)) :
  Forall (fun w => strip (w_word w) <> []) ws ->
  join space (List.map (@s_text T) (segment cfg ws))
    = join space (List.map (fun w => strip (w_word w)) ws)
  /\ exists groups,
       concat groups = ws
       /\ segment cfg ws = List.map chunk_of_group groups.
Proof.
  intros Hne.
  destruct (segment_structure cfg ws) as (E & Ok & rest & Ews & Hrest).
  assert (Hr : rest = []).
  { destruct rest as [|w r]; [reflexivity|exfalso].
    inversion Hrest as [|? ? Hw _]; subst.
    rewrite Ews in Hne; apply Forall_app in Hne; destruct Hne as [_ Hne].
    inversion Hne as [|? ? Hw' _]; subst; now apply Hw'. }
  subst rest; rewrite app_nil_r in Ews.
  split; [|exists (segment_groups cfg ws); now split].
  rewrite E, map_map; cbn [chunk_of_group s_text].
  rewrite Ews at 2; rewrite concat_map.
  rewrite <- join_concat.
  - rewrite map_map; f_equal; apply map_ext_in; intros g Hg.
    unfold words_text; f_equal; apply filter_truthy_id.
    apply Forall_forall; intros s Hs; apply in_map_iff in Hs.
    destruct Hs as (w & <- & Hw).
    rewrite Forall_forall in Hne; apply Hne.
    rewrite Ews; apply in_concat; now exists g.
  - apply Forall_forall; intros l Hl; apply in_map_iff in Hl.
    destruct Hl as (g & <- & Hg).
    rewrite Forall_forall in Ok; destruct (Ok g Hg) as [Hg0 _].
    now destruct g.
Qed.

(** C2. A word that would take the open chunk beyond [max_chars] or beyond
    [max_duration] closes the chunk as it stands, without the word, and
    opens a new chunk with the word; the branch taken is one of the two
    overflow branches, never the punctuation branch, whatever the last
    character of the word is. *)
Theorem C2_overflow_before_punctuation n i (w : Word T) (st : State T) cs :
  chunk_start_time st = Some cs ->
  (len (strip (chunk_text st ++ space ++ strip (w_word w))) > max_chars cfg)%Z
  \/ tgtb (tsub (w_end w) cs) (max_duration cfg) = true ->
  step cfg n i w st =
    {| subtitles := subtitles st ++ [closed_chunk st];
       chunk_start_time := Some (w_start w);
       chunk_end_time := Some (w_end w);
       chunk_text := strip (w_word w);
       prev_word_end := w_end w |}
  /\ (branch cfg n i w st = BLength \/ branch cfg n i w st = BDuration).
Proof.
  intros Ecs Hover; rewrite step_branch; unfold branch; rewrite Ecs.
  destruct (_ >? _)%Z eqn:EL; [split; [reflexivity | now left]|].
  destruct Hover as [Hl|Hd]; [lia|].
  rewrite Hd; split; [reflexivity | now right].
Qed.


(** Whatever branch a word takes, [prev_word_end] is its end
    afterwards (lines 95 and 157). *)
Theorem prev_word_end_updated n i (w : Word T) (st : State T) :
  prev_word_end (step cfg n i w st) = w_end w.
Proof.
  rewrite step_branch; now destruct (branch cfg n i w st).
Qed.

End SegmenterClaims.

Lemma C1_completeness_witness :
  join space (List.map (@s_text Q)
                (segment Scenario.default_config Scenario.words_a))
  = lit "Hola mundo. " ++ Scenario.adios.
Proof.
  refine (eq_trans
            (proj1 (C1_completeness Scenario.default_config
                      (ws := Scenario.words_a) _)) _).
  - repeat constructor; vm_compute; discriminate.
  - vm_compute; reflexivity.
Defined.

(* ================================================================= *)
(** ** Words too long for a chunk *)

Section Overlong.

Context {T : Type} `{TimeOps T}.
Variable cfg : Config T.

Lemma strip_glue_length_l a b :
  stripped a -> stripped b -> a <> [] ->
  length a <= length (strip (a ++ space ++ b)).
Proof.
  intros Ha Hb Hne; rewrite strip_glue by assumption.
  destruct a; [congruence|]; destruct b; [lia|].
  rewrite length_app; lia.
Qed.

Lemma strip_glue_length_r a b :
  stripped a -> stripped b -> b <> [] ->
  length b <= length (strip (a ++ space ++ b)).
Proof.
  intros Ha Hb Hne; rewrite strip_glue by assumption.
  destruct a; [lia|]; destruct b; [congruence|].
  rewrite !length_app; lia.
Qed.

Lemma tloop_app n i ws1 ws2 st (tr : Trace T) :
  tloop cfg n i (ws1 ++ ws2) st tr =
  tloop cfg n (i + length ws1) ws2
    (fst (tloop cfg n i ws1 st tr)) (snd (tloop cfg n i ws1 st tr)).
Proof.
  revert i st tr; induction ws1 as [|w r IH]; intros i st tr; simpl.
  - now rewrite Nat.add_0_r.
  - rewrite IH; f_equal; lia.
Qed.

(** A closed chunk stays closed. *)
Lemma tstep_closed n i w st (tr : Trace T) g :
  In g (closed tr) -> In g (closed (tstep cfg n i w st tr)).
Proof.
  intros Hg; unfold tstep; destruct (branch cfg n i w st); simpl;
    try apply in_or_app; auto.
Qed.

Lemma tloop_closed n i ws st (tr : Trace T) g :
  In g (closed tr) -> In g (closed (snd (tloop cfg n i ws st tr))).
Proof.
  revert i st tr; induction ws as [|w r IH]; intros i st tr Hg; simpl.
  - exact Hg.
  - apply IH, tstep_closed, Hg.
Qed.

Lemma tflush_closed st (tr : Trace T) g :
  In g (closed tr) -> In g (tflush st tr).
Proof.
  intros Hg; unfold tflush; destruct (truthy _); [apply in_or_app|]; auto.
Qed.

(** A word longer than [max_chars] starts a chunk of its own. *)
Lemma overlong_starts_chunk n i w st tr :
  Inv cfg st tr ->
  trimmed w <> [] -> (len (trimmed w) > max_chars cfg)%Z ->
  current (tstep cfg n i w st tr) = [w]
  /\ chunk_text (step cfg n i w st) = trimmed w
  /\ chunk_start_time (step cfg n i w st) = Some (w_start w).
Proof.
  intros I Hne Hlong; rewrite step_branch; unfold tstep.
  pose proof (branch_facts cfg n i w st) as B.
  destruct (branch cfg n i w st); simpl; auto.
  - rewrite (group_start_none (current tr)); auto.
    now rewrite <- (inv_start I).
  - exfalso; destruct B as (cs & _ & HL & _).
    pose proof (@strip_glue_length_r (chunk_text st) (trimmed w)) as L.
    rewrite (inv_text I) in L at 1.
    specialize (L (words_text_stripped _) (strip_stripped _) Hne).
    unfold len in *; lia.
  - exfalso; destruct B as (cs & _ & HL & _).
    pose proof (@strip_glue_length_r (chunk_text st) (trimmed w)) as L.
    rewrite (inv_text I) in L at 1.
    specialize (L (words_text_stripped _) (strip_stripped _) Hne).
    unfold len in *; lia.
Qed.

(** The word after it closes that chunk. *)
Lemma after_overlong n i w' st cs t :
  chunk_start_time st = Some cs ->
  chunk_text st = t -> stripped t -> t <> [] ->
  (len t > max_chars cfg)%Z ->
  branch cfg n i w' st = BLength.
Proof.
  intros Ecs Et St Hne Hlong; unfold branch; rewrite Ecs, Et.
  pose proof (@strip_glue_length_l t (strip (w_word w')) St
                (strip_stripped _) Hne) as L.
  destruct (_ >? _)%Z eqn:E; [reflexivity|].
  unfold len in *; lia.
Qed.

Lemma overlong_word_own_chunk pre w post :
  trimmed w <> [] -> (len (trimmed w) > max_chars cfg)%Z ->
  In [w] (segment_groups cfg (pre ++ w :: post)).
Proof.
  intros Hne Hlong; unfold segment_groups.
  set (n := length (pre ++ w :: post)).
  rewrite tloop_app.
  pose proof (@tloop_inv _ _ cfg n 0 pre _ _ (init_inv cfg)) as I.
  destruct (tloop cfg n 0 pre init _) as [st1 tr1]; simpl fst in *;
    simpl snd in *.
  cbn [tloop].
  destruct (overlong_starts_chunk n (0 + length pre) w I Hne Hlong)
    as (Ecur & Etxt & Est).
  pose proof (step_inv n (0 + length pre) w I) as I2.
  destruct post as [|w' post']; cbn [tloop].
  - unfold tflush; rewrite Etxt.
    unfold trimmed in *; rewrite strip_idem.
    destruct (strip (w_word w)) eqn:E; [congruence|]; cbn [truthy].
    apply in_or_app; right; rewrite Ecur; now left.
  - match goal with |- In _ (let (a, b) := ?p in _) =>
      rewrite (surjective_pairing p) end.
    apply tflush_closed, tloop_closed.
    unfold tstep at 1.
    rewrite (@after_overlong n _ w' _ (w_start w) (trimmed w) Est Etxt
               (strip_stripped _) Hne Hlong).
    cbn [closed]; apply in_or_app; right; rewrite Ecur; now left.
Qed.

End Overlong.

(* ================================================================= *)
(** ** The bounds, the last word and empty words *)

Section BoundClaims.

Context {T : Type} `{TimeOps T}.
Variable cfg : Config T.

Lemma loop_inv n ws : exists tr, Inv cfg (loop cfg n 0 ws init) tr.
Proof.
  exists (snd (tloop cfg n 0 ws init {| closed := []; current := [] |})).
  rewrite <- (tloop_fst cfg n 0 ws init {| closed := []; current := [] |}).
  apply tloop_inv, init_inv.
Qed.

Lemma loop_stripped n ws : stripped (chunk_text (loop cfg n 0 ws init)).
Proof.
  destruct (loop_inv n ws) as [tr I]; rewrite (inv_text I).
  apply words_text_stripped.
Qed.

Lemma segment_snoc ws w :
  segment cfg (ws ++ [w]) =
  flush (step cfg (length (ws ++ [w])) (length ws) w
           (loop cfg (length (ws ++ [w])) 0 ws init)).
Proof. unfold segment; now rewrite loop_app. Qed.

Lemma segment_single (w : Word T) :
  strip (w_word w) <> [] ->
  segment cfg [w] =
  [{| s_start := Some (w_start w); s_end := Some (w_end w);
      s_text := strip (w_word w) |}].
Proof.
  intros Hne; unfold segment, flush; simpl.
  rewrite strip_idem.
  destruct (strip (w_word w)) eqn:E; [congruence|].
  unfold closed_chunk; simpl; now rewrite E, <- E, strip_idem.
Qed.

Lemma chunk_of_single (w : Word T) :
  chunk_of_group [w] =
  {| s_start := Some (w_start w); s_end := Some (w_end w);
     s_text := strip (w_word w) |}.
Proof. unfold chunk_of_group; now rewrite words_text_single. Qed.

Lemma gtb_le_false (a b : Z) : (a <= b)%Z -> (a >? b)%Z = false.
Proof. intros L; rewrite Z.gtb_ltb; apply Z.ltb_ge, L. Qed.

Lemma str_in_iff x l : str_in x l = true <-> In x l.
Proof.
  unfold str_in; rewrite existsb_exists; split.
  - intros (y & Hy & E); unfold str_eqb in E.
    destruct (list_eq_dec N.eq_dec x y); [now subst | discriminate].
  - intros Hx; exists x; split; [exact Hx|]; unfold str_eqb.
    now destruct (list_eq_dec N.eq_dec x x).
Qed.

(** C3. A chunk made of two or more words has a text of at most
    [max_chars] characters.  A word whose trimmed text is longer than
    [max_chars], wherever it stands in the input, is emitted as a chunk of
    its own: its start, its end and its trimmed text, unchanged. *)
Theorem C3_length_bound (ws : list (Word T)) :
  segment cfg ws = List.map chunk_of_group (segment_groups cfg ws)
  /\ (forall g, In g (segment_groups cfg ws) -> 2 <= length g ->
        (len (s_text (chunk_of_group g)) <= max_chars cfg)%Z)
  /\ (forall pre w post,
        ws = pre ++ w :: post ->
        strip (w_word w) <> [] ->
        (len (strip (w_word w)) > max_chars cfg)%Z ->
        In [w] (segment_groups cfg ws)
        /\ In {| s_start := Some (w_start w); s_end := Some (w_end w);
                 s_text := strip (w_word w) |} (segment cfg ws)).
Proof.
  destruct (segment_structure cfg ws) as (E & Ok & _).
  split; [exact E|split].
  - intros g Hg H2; rewrite Forall_forall in Ok.
    destruct (Ok g Hg) as [_ B]; now apply B.
  - intros pre w post -> Hne Hlong.
    pose proof (overlong_word_own_chunk cfg pre w post Hne Hlong) as Hin.
    split; [exact Hin|].
    rewrite E, <- chunk_of_single; now apply in_map.
Qed.

(** C4. A chunk made of two or more words ends at most [max_duration]
    after it starts: the difference the loop tested, end of the last word
    minus start of the first, is not greater than [max_duration].  A chunk
    made of one word is emitted with that word's start and end, whatever
    the word's own duration; a single word is a chunk. *)
Theorem C4_duration_bound (ws : list (Word T)) :
  segment cfg ws = List.map chunk_of_group (segment_groups cfg ws)
  /\ (forall g, In g (segment_groups cfg ws) -> 2 <= length g ->
        exists s e,
          s_start (chunk_of_group g) = Some s
          /\ s_end (chunk_of_group g) = Some e
          /\ tgtb (tsub e s) (max_duration cfg) = false)
  /\ (forall w, In [w] (segment_groups cfg ws) ->
        In {| s_start := Some (w_start w); s_end := Some (w_end w);
              s_text := strip (w_word w) |} (segment cfg ws))
  /\ (forall w, strip (w_word w) <> [] ->
        segment cfg [w] =
        [{| s_start := Some (w_start w); s_end := Some (w_end w);
            s_text := strip (w_word w) |}]).
Proof.
  destruct (segment_structure cfg ws) as (E & Ok & _).
  split; [exact E|split; [|split]].
  - intros g Hg H2; rewrite Forall_forall in Ok.
    destruct (Ok g Hg) as [_ B]; destruct (B H2) as [_ D].
    unfold duration_ok in D; cbn [chunk_of_group s_start s_end].
    destruct (group_start g) as [s|]; [|contradiction].
    destruct (group_end g) as [e|]; [|contradiction].
    now exists s, e.
  - intros w Hin; rewrite E, <- chunk_of_single; now apply in_map.
  - apply segment_single.
Qed.

(** C8. When the last word of the input is absorbed into the open chunk,
    the punctuation branch is not taken, whether or not the word ends in a
    character of [punctuation_breaks]: the chunk stays open and the flush
    after the loop emits it, with the word in it, as the last chunk.  The
    output is what the loop gives for that word with no punctuation
    character configured at all. *)
Theorem C8_last_word_punctuation (ws : list (Word T)) (w : Word T) cs :
  let n := length (ws ++ [w]) in
  let st := loop cfg n 0 ws init in
  strip (w_word w) <> [] ->
  chunk_start_time st = Some cs ->
  (len (strip (chunk_text st ++ space ++ strip (w_word w)))
     <= max_chars cfg)%Z ->
  tgtb (tsub (w_end w) cs) (max_duration cfg) = false ->
  tgeb (tsub (w_start w) (prev_word_end st)) (silence_threshold cfg)
    && (len (chunk_text st) >? 0)%Z = false ->
  branch cfg n (length ws) w st = BAbsorb
  /\ segment cfg (ws ++ [w]) =
       subtitles st ++
       [{| s_start := Some cs; s_end := Some (w_end w);
           s_text := strip (chunk_text st ++ space ++ strip (w_word w)) |}]
  /\ segment cfg (ws ++ [w]) =
       flush (step (without_punctuation cfg) n (length ws) w st).
Proof.
  intros n st Hne Ecs HL HD HS.
  assert (Hi : (Z.of_nat (length ws) <? Z.of_nat n - 1)%Z = false).
  { apply Z.ltb_ge; subst n; rewrite length_app; cbn [length]; lia. }
  assert (B : branch cfg n (length ws) w st = BAbsorb).
  { unfold branch; rewrite Ecs, (gtb_le_false HL), HD, HS, Hi, andb_false_r.
    reflexivity. }
  assert (B' : branch (without_punctuation cfg) n (length ws) w st = BAbsorb).
  { unfold branch; cbn [without_punctuation max_chars max_duration
      silence_threshold punctuation_breaks].
    rewrite Ecs, (gtb_le_false HL), HD, HS, Hi; reflexivity. }
  split; [exact B|].
  rewrite segment_snoc; fold n; fold st.
  rewrite !step_branch, B, B'; split; [|reflexivity].
  pose proof (@strip_glue_length_r (chunk_text st) (strip (w_word w))
                (loop_stripped n ws) (strip_stripped _) Hne) as L.
  remember (strip (chunk_text st ++ space ++ strip (w_word w))) as pt eqn:Ept.
  assert (Ei : strip pt = pt) by (subst pt; apply strip_idem).
  unfold flush, run_branch, absorb, closed_chunk.
  cbn [subtitles chunk_start_time chunk_end_time chunk_text].
  rewrite <- Ept, Ei, Ecs.
  destruct pt as [|c r].
  - destruct (strip (w_word w)); [congruence | simpl in L; lia].
  - reflexivity.
Qed.

(** C10. A word whose text trims to the empty string never takes the
    punctuation branch, provided the empty string is no member of
    [punctuation_breaks]; when such a word is absorbed, the open chunk keeps
    its start and its text, gets the word's end as its end, and no chunk is
    closed. *)
Theorem C10_empty_word_no_punctuation_cut (pre : list (Word T)) w post :
  let n := length (pre ++ w :: post) in
  let st := loop cfg n 0 pre init in
  ~ In [] (punctuation_breaks cfg) ->
  strip (w_word w) = [] ->
  (forall n' i' st', branch cfg n' i' w st' <> BPunct)
  /\ (branch cfg n (length pre) w st = BAbsorb ->
      step cfg n (length pre) w st =
      {| subtitles := subtitles st;
         chunk_start_time := chunk_start_time st;
         chunk_end_time := Some (w_end w);
         chunk_text := chunk_text st;
         prev_word_end := w_end w |}).
Proof.
  intros n st Hp Hw; split.
  - intros n' i' st'; unfold branch; rewrite Hw.
    destruct (chunk_start_time st'); [|discriminate].
    destruct (_ >? _)%Z; [discriminate|].
    destruct (tgtb _ _); [discriminate|].
    destruct (_ && _); [discriminate|].
    destruct (str_in _ _) eqn:E; [|discriminate].
    exfalso; apply Hp; now apply str_in_iff.
  - intros B; rewrite step_branch, B; unfold run_branch, absorb.
    rewrite Hw, strip_glue by (apply loop_stripped || apply stripped_nil).
    now destruct (chunk_text st).
Qed.

End BoundClaims.

(* ================================================================= *)
(** ** Time stamps of the chunks *)

#[export] Instance Q_order : TimeOrder Q.
Proof.
  constructor; intros a b c Hab Hbc; simpl in *.
  apply Qle_bool_iff in Hab, Hbc; apply Qle_bool_iff.
  now apply Qle_trans with b.
Qed.

(** The comparison of binary64 numbers is transitive: [nan] is below and
    above nothing, the other numbers are ordered by sign, exponent and
    mantissa. *)
Lemma SFleb_trans x y z :
  SFleb x y = true -> SFleb y z = true -> SFleb x z = true.
Proof.
  unfold SFleb, SFcompare.
  destruct x as [sx|sx| |sx mx ex], y as [sy|sy| |sy my ey],
           z as [sz|sz| |sz mz ez];
    try discriminate; try reflexivity;
    repeat match goal with b : bool |- _ => destruct b end;
    try discriminate; try reflexivity; try (intros; assumption).
  all: destruct (Z.compare_spec ex ey), (Z.compare_spec ey ez),
         (Z.compare_spec ex ez);
       try discriminate; try reflexivity; try lia; subst;
       rewrite ?Pos.compare_cont_spec; simpl;
       destruct (Pos.compare_spec mx my), (Pos.compare_spec my mz),
         (Pos.compare_spec mx mz);
       simpl; try discriminate; try reflexivity; try lia.
Qed.

#[export] Instance float_order : TimeOrder float.
Proof.
  constructor; intros a b c; simpl; rewrite !leb_spec; apply SFleb_trans.
Qed.

Section Ordering.

Context {T : Type} `{TimeOrder T}.
Variable cfg : Config T.

Lemma by_start_trans a b c : by_start a b -> by_start b c -> by_start a c.
Proof. unfold by_start; apply tleb_trans. Qed.

Lemma sorted_strongly ws : Sorted by_start ws -> StronglySorted by_start ws.
Proof.
  apply Sorted_StronglySorted; intros a b c; apply by_start_trans.
Qed.

Lemma strongly_app_inv {A} (R : A -> A -> Prop) l1 l2 :
  StronglySorted R (l1 ++ l2) ->
  StronglySorted R l1 /\ StronglySorted R l2
  /\ forall x y, In x l1 -> In y l2 -> R x y.
Proof.
  induction l1 as [|a r IH]; simpl; intros S.
  - repeat split; [constructor | exact S | intros x y []].
  - inversion S as [|? ? S' F]; subst.
    destruct (IH S') as (S1 & S2 & C).
    rewrite Forall_app in F; destruct F as [F1 F2].
    repeat split; [now constructor | exact S2 |].
    intros x y [<-|Hx] Hy; [|now apply C].
    rewrite Forall_forall in F2; now apply F2.
Qed.

Lemma last_in_tail {A} (a : A) r z :
  r <> [] -> hd_error (rev (a :: r)) = Some z -> In z r.
Proof.
  intros Hr Hz; simpl in Hz; apply in_rev.
  destruct (rev r) as [|y t] eqn:E.
  - apply (f_equal (@rev A)) in E; rewrite rev_involutive in E.
    now subst r.
  - simpl in Hz; injection Hz as <-; now left.
Qed.

(** From the start of the first word of a group to the end of its last. *)
Lemma group_span (g : list (Word T)) w1 w2 :
  StronglySorted by_start g ->
  Forall (fun w => tleb (w_start w) (w_end w) = true) g ->
  hd_error g = Some w1 -> hd_error (rev g) = Some w2 ->
  tleb (w_start w1) (w_end w2) = true.
Proof.
  intros S F H1 H2; destruct g as [|a r]; [discriminate|].
  injection H1 as ->.
  assert (Hin : In w2 (w1 :: r)).
  { apply in_rev; destruct (rev (w1 :: r)); [discriminate|].
    injection H2 as ->; now left. }
  rewrite Forall_forall in F; pose proof (F w2 Hin) as F2.
  destruct r as [|b r].
  - simpl in H2; injection H2 as <-; exact F2.
  - inversion S as [|? ? _ Fa]; subst.
    rewrite Forall_forall in Fa.
    apply tleb_trans with (w_start w2); [|exact F2].
    apply Fa; now apply last_in_tail with w1.
Qed.

Lemma chunk_starts_sorted (gs : list (list (Word T))) rest :
  Forall (fun g => g <> []) gs ->
  StronglySorted by_start (concat gs ++ rest) ->
  StronglySorted start_le (List.map chunk_of_group gs).
Proof.
  induction 1 as [|g gs Hg Hgs IH]; simpl; intros S; [constructor|].
  rewrite <- app_assoc in S.
  destruct (strongly_app_inv _ _ S) as (_ & S2 & C).
  constructor; [now apply IH|].
  apply Forall_forall; intros c Hc; apply in_map_iff in Hc.
  destruct Hc as (g' & <- & Hg').
  rewrite Forall_forall in Hgs; pose proof (Hgs g' Hg') as Hne.
  destruct g as [|a r]; [congruence|].
  destruct g' as [|a' r']; [congruence|].
  exists (w_start a), (w_start a'); repeat split.
  apply C; [now left|].
  apply in_or_app; left; apply in_concat.
  exists (a' :: r'); split; [exact Hg' | now left].
Qed.

(** C9. When every word starts no later than it ends and the words come by
    non-decreasing start, every chunk starts no later than it ends and the
    chunks come by non-decreasing start; the chunks are made of consecutive
    groups of words, and each chunk has the start of the first word and the
    end of the last word of its group. *)
Theorem C9_chunk_times (ws : list (Word T)) :
  Forall (fun w => tleb (w_start w) (w_end w) = true) ws ->
  Sorted by_start ws ->
  (forall c, In c (segment cfg ws) ->
     exists s e,
       s_start c = Some s /\ s_end c = Some e /\ tleb s e = true)
  /\ StronglySorted start_le (segment cfg ws)
  /\ exists groups rest,
       ws = concat groups ++ rest
       /\ Forall2
            (fun g c =>
               exists w1 w2,
                 hd_error g = Some w1 /\ hd_error (rev g) = Some w2
                 /\ s_start c = Some (w_start w1)
                 /\ s_end c = Some (w_end w2))
            groups (segment cfg ws).
Proof.
  intros F S; apply sorted_strongly in S.
  destruct (segment_structure cfg ws) as (E & Ok & rest & Ews & _).
  assert (Hne : Forall (fun g => g <> []) (segment_groups cfg ws)).
  { eapply Forall_impl; [|exact Ok]; now intros g [Hg _]. }
  split; [|split].
  - intros c Hc.
    destruct (segment_times cfg ws c Hc)
      as (g & w1 & w2 & Hg & _ & H1 & H2 & Es & Ee).
    exists (w_start w1), (w_end w2); repeat split; try assumption.
    assert (Hsub : forall x, In x g -> In x ws).
    { intros x Hx; rewrite Ews; apply in_or_app; left.
      apply in_concat; now exists g. }
    apply group_span with g; try assumption.
    + apply in_split in Hg; destruct Hg as (l1 & l2 & Eg).
      rewrite Ews, Eg, concat_app in S; simpl in S.
      rewrite <- !app_assoc in S.
      apply strongly_app_inv in S; destruct S as (_ & S & _).
      apply strongly_app_inv in S; now destruct S as (S & _).
    + rewrite Forall_forall in *; auto.
  - rewrite E; apply chunk_starts_sorted with rest; [exact Hne|].
    now rewrite <- Ews.
  - exists (segment_groups cfg ws), rest; split; [exact Ews|].
    rewrite E; clear E Ews Ok.
    induction Hne as [|g gs Hg _ IH]; simpl; constructor; [|exact IH].
    destruct g as [|w1 r]; [congruence|].
    destruct (rev (w1 :: r)) as [|w2 r'] eqn:R.
    { apply (f_equal (@length _)) in R; rewrite length_rev in R.
      discriminate. }
    exists w1, w2; repeat split.
    unfold chunk_of_group, group_end; cbn [s_end]; now rewrite R.
Qed.

End Ordering.

(* ================================================================= *)
(** ** Facts about the formatter *)

Module FormatterFacts.

Import Formatter.

Local Open Scope N_scope.











Close Scope N_scope.
Local Open Scope Z_scope.

(** *** Floors of rationals *)

Lemma Qfloor_div_pos (x : Q) (p : positive) :
  Qfloor (x / (Zpos p # 1)) = Qfloor x / Zpos p.
Proof.
  destruct x as [a b]; unfold Qdiv, Qmult, Qinv, Qfloor.
  cbn [Qnum Qden].
  now rewrite Z.mul_1_r, Pos2Z.inj_mul, Z.div_div by lia.
Qed.





Lemma int_of_inject_Z (k : Z) : int_of (inject_Z k) = k.
Proof.
  unfold int_of; destruct (Qle_bool 0 (inject_Z k));
    [apply Qfloor_Z | apply Qceiling_Z].
Qed.

Lemma Qfloor_nonneg (x : Q) : (0 <= x)%Q -> 0 <= Qfloor x.
Proof. intros Hx; now apply (Qfloor_resp_le 0 x). Qed.



(** *** The four fields *)

Section Fields.

Variable seconds : Q.
Hypothesis nonneg : (0 <= seconds)%Q.

Lemma hours_value :
  int_of (floordiv seconds 3600) = Qfloor seconds / 3600.
Proof.
  unfold floordiv; rewrite int_of_inject_Z.
  apply (Qfloor_div_pos seconds 3600).
Qed.




End Fields.





End FormatterFacts.

(* ================================================================= *)
(** ** The claim about the formatter *)

Section FormatterClaim.

Import Formatter FormatterFacts.

Local Open Scope Z_scope.


End FormatterClaim.



(* ================================================================= *)
(** ** The claims about the whole call *)

Section CallClaims.

Import Call CallExamples.

Lemma write_subtitles_returns subs :
  Forall (fun c : Subtitle Q => s_start c <> None /\ s_end c <> None) subs ->
  forall i f, snd (write_subtitles i subs f) = Returned tt.
Proof.
  induction 1 as [|c r [Hs He] _ IH]; intros i f; simpl; [reflexivity|].
  destruct (s_start c); [|congruence].
  destruct (s_end c); [|congruence].
  apply IH.
Qed.

Lemma segment_has_times (cfg : Config Q) ws :
  Forall (fun c : Subtitle Q => s_start c <> None /\ s_end c <> None)
    (segment cfg ws).
Proof.
  apply Forall_forall; intros c Hc.
  destruct (segment_times cfg ws c Hc)
    as (_ & w1 & w2 & _ & _ & _ & _ & Es & Ee).
  rewrite Es, Ee; split; discriminate.
Qed.

(** C5, as the code has it.  When no segment brings a word, the call prints
    the warning, writes no file and returns [None]: nothing is raised, and
    the caller gets what it gets from a call that wrote a file. *)
Theorem C5_no_words_early_return result srt_path cfg :
  words_list (segments result) = [] ->
  create_srt_with_natural_breaks result srt_path cfg =
  {| printed := [no_words_message]; files := []; outcome := Returned tt |}.
Proof.
  intros E; unfold create_srt_with_natural_breaks; now rewrite E.
Qed.

(** C6, as the code has it.  No configuration is rejected: whatever
    [max_chars], [max_duration] and [silence_threshold] are, the call
    returns [None] and raises nothing; when there is a word, it has run
    the loop with the values given and written the file. *)
Theorem C6_no_configuration_check result srt_path cfg :
  outcome (create_srt_with_natural_breaks result srt_path cfg) = Returned tt
  /\ (words_list (segments result) <> [] ->
      create_srt_with_natural_breaks result srt_path cfg =
      {| printed := [];
         files := [(srt_path,
                    fst (write_subtitles 1
                           (segment cfg (words_list (segments result))) []))];
         outcome := Returned tt |}).
Proof.
  unfold create_srt_with_natural_breaks.
  destruct (words_list (segments result)) as [|w ws] eqn:E.
  - split; [reflexivity | congruence].
  - pose proof (write_subtitles_returns (segment_has_times cfg (w :: ws))
                  1 []) as R.
    destruct (write_subtitles 1 (segment cfg (w :: ws)) []) as [f o].
    simpl in R; subst o; split; [reflexivity | intros _; reflexivity].
Qed.

End CallClaims.

(** C5 fails as stated: with no word at all the call raises nothing and
    returns [None], which is also what it returns for words that give no
    chunk. *)
Lemma C5_counterexample :
  words_list (Call.segments CallExamples.no_words) = []
  /\ (forall e,
        Call.outcome
          (Call.create_srt_with_natural_breaks CallExamples.no_words
             CallExamples.path Scenario.default_config)
        <> Call.Raised e)
  /\ segment Scenario.default_config
       (words_list (Call.segments CallExamples.blank_words)) = []
  /\ Call.outcome
       (Call.create_srt_with_natural_breaks CallExamples.blank_words
          CallExamples.path Scenario.default_config)
     = Call.outcome
         (Call.create_srt_with_natural_breaks CallExamples.no_words
            CallExamples.path Scenario.default_config).
Proof. repeat split; intros e; discriminate. Qed.

Lemma C5_no_words_early_return_witness :
  Call.create_srt_with_natural_breaks CallExamples.no_words
    CallExamples.path Scenario.default_config
  = {| Call.printed := [Call.no_words_message]; Call.files := [];
       Call.outcome := Call.Returned tt |}.
Proof.
  apply (@C5_no_words_early_return CallExamples.no_words).
  reflexivity.
Defined.

(** C6 fails as stated: with [max_chars = 0], [max_duration = -1] and
    [silence_threshold = -1] the call is not rejected; it raises nothing,
    returns [None], and every word of scenario A has become a chunk. *)
Lemma C6_counterexample :
  (forall e,
     Call.outcome
       (Call.create_srt_with_natural_breaks CallExamples.result_a
          CallExamples.path CallExamples.bad_config)
     <> Call.Raised e)
  /\ Call.outcome
       (Call.create_srt_with_natural_breaks CallExamples.result_a
          CallExamples.path CallExamples.bad_config)
     = Call.Returned tt
  /\ segment CallExamples.bad_config Scenario.words_a =
     [ Scenario.mk_sub 0%Q (4 # 10)%Q (lit "Hola");
       Scenario.mk_sub (4 # 10)%Q (9 # 10)%Q (lit "mundo.");
       Scenario.mk_sub 2%Q (23 # 10)%Q Scenario.adios ].
Proof.
  split; [intros e; vm_compute; discriminate|].
  split; vm_compute; reflexivity.
Qed.

(* ================================================================= *)
(** ** The claims at the example inputs *)


Lemma C2_overflow_before_punctuation_witness :
  branch Instances.tight_config 3 1 Instances.mundo
    (Instances.after_hola Instances.tight_config) = BLength
  \/ branch Instances.tight_config 3 1 Instances.mundo
       (Instances.after_hola Instances.tight_config) = BDuration.
Proof.
  refine (proj2 (@C2_overflow_before_punctuation Q Q_time
                   Instances.tight_config 3 1 Instances.mundo
                   (Instances.after_hola Instances.tight_config) 0%Q _ _)).
  - reflexivity.
  - left; vm_compute; reflexivity.
Defined.

Lemma C3_length_bound_witness :
  In (Scenario.mk_sub 0%Q (1 # 2)%Q (repeat 97%N 70))
     (segment Scenario.default_config [Scenario.long_word]).
Proof.
  refine (proj2 (proj2 (proj2 (C3_length_bound Scenario.default_config
                                 [Scenario.long_word]))
                   [] Scenario.long_word [] _ _ _)).
  - reflexivity.
  - vm_compute; discriminate.
  - vm_compute; reflexivity.
Defined.

Lemma C4_duration_bound_witness :
  segment Scenario.default_config [Scenario.slow_word]
  = [Scenario.mk_sub 1%Q 9%Q (lit "Eeeeh")]
  /\ tgtb (tsub 9%Q 1%Q) (max_duration Scenario.default_config) = true.
Proof.
  split; [|reflexivity].
  refine (proj2 (proj2 (proj2 (C4_duration_bound Scenario.default_config
                                 [Scenario.slow_word])))
            Scenario.slow_word _).
  vm_compute; discriminate.
Defined.

Lemma C8_last_word_punctuation_witness :
  segment Scenario.default_config [Instances.hola; Instances.mundo]
  = [Scenario.mk_sub 0%Q (9 # 10)%Q (lit "Hola mundo.")].
Proof.
  refine (proj1 (proj2 (@C8_last_word_punctuation Q Q_time
                          Scenario.default_config [Instances.hola]
                          Instances.mundo 0%Q _ _ _ _ _))).
  - vm_compute; discriminate.
  - reflexivity.
  - vm_compute; discriminate.
  - reflexivity.
  - reflexivity.
Defined.

Lemma C9_chunk_times_witness :
  StronglySorted (@start_le float float_time)
    (segment Scenario.float_config Scenario.float_words_a).
Proof.
  refine (proj1 (proj2 (@C9_chunk_times float float_time float_order
                          Scenario.float_config Scenario.float_words_a
                          _ _))).
  - repeat constructor.
  - repeat constructor.
Defined.

Lemma C10_empty_word_no_punctuation_cut_witness :
  branch Scenario.default_config 3 1 Instances.blank
    (Instances.after_hola Scenario.default_config) <> BPunct.
Proof.
  refine (proj1 (@C10_empty_word_no_punctuation_cut Q Q_time
                   Scenario.default_config [Instances.hola] Instances.blank
                   [Instances.last_one] _ _) 3 1
            (Instances.after_hola Scenario.default_config)).
  - intros [E|[E|[E|[]]]]; discriminate.
  - reflexivity.
Defined.

(* ================================================================= *)
(** ** More about the chunks *)

Section ChunkFacts.

Context {T : Type} `{TimeOps T}.
Variable cfg : Config T.

Lemma length_concat_nonempty {A} (gs : list (list A)) :
  Forall (fun g => g <> []) gs -> length gs <= length (concat gs).
Proof.
  induction 1 as [|g gs Hg _ IH]; simpl; [lia|].
  rewrite length_app; destruct g; [congruence | simpl; lia].
Qed.

(** X2. The segmenter never emits more chunks than it was given words. *)
Theorem chunks_at_most_words (ws : list (Word T)) :
  length (segment cfg ws) <= length ws.
Proof.
  destruct (segment_structure cfg ws) as (E & Ok & rest & Ews & _).
  rewrite E, length_map.
  assert (Hne : Forall (fun g => g <> []) (segment_groups cfg ws)).
  { eapply Forall_impl; [|exact Ok]; now intros g [Hg _]. }
  apply length_concat_nonempty in Hne.
  apply (f_equal (@length _)) in Ews; rewrite length_app in Ews; lia.
Qed.

(** X3. The text of every chunk is stripped, and it is the empty string only
    for a chunk all of whose words are blank; when no word of the input is
    blank, no chunk has an empty text. *)
Theorem chunk_texts_stripped (ws : list (Word T)) (c : Subtitle T) :
  In c (segment cfg ws) ->
  strip (s_text c) = s_text c
  /\ (exists g, In g (segment_groups cfg ws)
        /\ c = chunk_of_group g
        /\ (s_text c = [] <-> Forall (fun w => strip (w_word w) = []) g))
  /\ (Forall (fun w => strip (w_word w) <> []) ws -> s_text c <> []).
Proof.
  intros Hc.
  destruct (segment_structure cfg ws) as (E & Ok & rest & Ews & _).
  rewrite E in Hc; apply in_map_iff in Hc; destruct Hc as (g & <- & Hg).
  cbn [chunk_of_group s_text].
  split; [apply strip_of_stripped, words_text_stripped|].
  split; [exists g; repeat split; try assumption; apply words_text_nil_iff|].
  intros Hne E0; apply words_text_nil_iff in E0.
  rewrite Forall_forall in Ok; destruct (Ok g Hg) as [Hg0 _].
  destruct g as [|w r]; [congruence|].
  inversion E0 as [|? ? Hw _]; subst.
  rewrite Forall_forall in Hne; apply (Hne w); [|exact Hw].
  rewrite Ews; apply in_or_app; left; apply in_concat.
  exists (w :: r); split; [exact Hg | now left].
Qed.

(** *** Closed chunks stay *)

Lemma step_appends n i w (st : State T) :
  exists more, subtitles (step cfg n i w st) = subtitles st ++ more.
Proof.
  rewrite step_branch; destruct (branch cfg n i w st); simpl;
    eauto using app_nil_r; exists []; now rewrite app_nil_r.
Qed.

Lemma loop_appends n i ws (st : State T) :
  exists more, subtitles (loop cfg n i ws st) = subtitles st ++ more.
Proof.
  revert i st; induction ws as [|w r IH]; intros i st; simpl.
  - exists []; now rewrite app_nil_r.
  - destruct (IH (S i) (step cfg n i w st)) as [m1 E1].
    destruct (step_appends n i w st) as [m2 E2].
    exists (m2 ++ m1); now rewrite E1, E2, app_assoc.
Qed.

Lemma flush_appends (st : State T) :
  exists more, flush st = subtitles st ++ more.
Proof.
  unfold flush; destruct (truthy _); eauto.
  exists []; now rewrite app_nil_r.
Qed.

(** The loop body looks at the length of the list only to know whether the
    word is the last one. *)
Lemma step_not_last n n' i w (st : State T) :
  S i < n -> S i < n' -> step cfg n i w st = step cfg n' i w st.
Proof.
  intros Hn Hn'; unfold step.
  replace (Z.of_nat i <? Z.of_nat n - 1)%Z with true
    by (symmetry; apply Z.ltb_lt; lia).
  replace (Z.of_nat i <? Z.of_nat n' - 1)%Z with true
    by (symmetry; apply Z.ltb_lt; lia).
  reflexivity.
Qed.

Lemma loop_not_last n n' i ws (st : State T) :
  i + length ws < n -> i + length ws < n' ->
  loop cfg n i ws st = loop cfg n' i ws st.
Proof.
  revert i st; induction ws as [|w r IH]; intros i st Hn Hn'; simpl in *.
  - reflexivity.
  - rewrite (@step_not_last n n' i w st) by lia.
    apply IH; lia.
Qed.

(** X4. The chunks closed while the first words are read do not depend on the
    words that follow, and they open the output in the same order, whatever
    follows: a closed chunk is never changed or withdrawn. *)
Theorem closed_chunks_stay (ws1 ws2 : list (Word T)) :
  ws2 <> [] ->
  exists more,
    segment cfg (ws1 ++ ws2)
    = subtitles (loop cfg (S (length ws1)) 0 ws1 init) ++ more.
Proof.
  intros Hne; unfold segment; rewrite loop_app.
  rewrite (@loop_not_last (length (ws1 ++ ws2)) (S (length ws1)) 0 ws1 init).
  - set (st1 := loop cfg (S (length ws1)) 0 ws1 init).
    destruct (flush_appends
                (loop cfg (length (ws1 ++ ws2)) (0 + length ws1) ws2 st1))
      as [m1 E1].
    destruct (loop_appends (length (ws1 ++ ws2)) (0 + length ws1) ws2 st1)
      as [m2 E2].
    exists (m2 ++ m1); now rewrite E1, E2, app_assoc.
  - rewrite length_app; destruct ws2; [congruence | simpl; lia].
  - lia.
Qed.

(** *** Every word too long *)

Lemma all_overlong_loop n :
  forall ws i (st : State T) tr w0,
    Inv cfg st tr -> current tr = [w0] ->
    chunk_text st = trimmed w0 -> trimmed w0 <> [] ->
    (len (trimmed w0) > max_chars cfg)%Z ->
    chunk_start_time st = Some (w_start w0) ->
    Forall (fun w => trimmed w <> []
                     /\ (len (trimmed w) > max_chars cfg)%Z) ws ->
    tflush (fst (tloop cfg n i ws st tr)) (snd (tloop cfg n i ws st tr))
    = closed tr ++ List.map (fun w => [w]) (w0 :: ws).
Proof.
  induction ws as [|w r IH]; intros i st tr w0 I Ec Et Hne Hl Es F.
  - simpl; unfold tflush; rewrite Et.
    unfold trimmed in *; rewrite strip_idem.
    destruct (strip (w_word w0)); [congruence|]; now rewrite Ec.
  - inversion F as [|? ? [Hw1 Hw2] Fr]; subst.
    cbn [tloop].
    pose proof (@after_overlong _ _ cfg n i w st (w_start w0) (trimmed w0)
                  Es Et (strip_stripped _) Hne Hl) as B.
    destruct (overlong_starts_chunk n i w I Hw1 Hw2) as (_ & Et' & Es').
    rewrite (IH (S i) _ _ w (step_inv n i w I)); try assumption.
    + unfold tstep; rewrite B, Ec; cbn [closed List.map].
      now rewrite <- app_assoc.
    + unfold tstep; now rewrite B.
Qed.

(** X5. When every word is longer than [max_chars] (and not blank), as with
    [max_chars <= 0], each word is a chunk of its own, with its start, its
    end and its trimmed text. *)
Theorem every_word_overlong (ws : list (Word T)) :
  Forall (fun w => strip (w_word w) <> []
                   /\ (len (strip (w_word w)) > max_chars cfg)%Z) ws ->
  segment cfg ws = List.map chunk_of_word ws.
Proof.
  intros F.
  destruct (segment_structure cfg ws) as (E & _).
  rewrite E; clear E.
  assert (G : segment_groups cfg ws = List.map (fun w => [w]) ws).
  { unfold segment_groups.
    rewrite (surjective_pairing (tloop _ _ _ _ _ _)).
    destruct ws as [|w0 r]; [reflexivity|].
    inversion F as [|? ? [H1 H2] Fr]; subst.
    cbn [tloop].
    pose proof (init_inv cfg) as I0.
    destruct (overlong_starts_chunk (length (w0 :: r)) 0 w0 I0 H1 H2)
      as (Ec & Et & Es).
    rewrite (@all_overlong_loop (length (w0 :: r)) r 1 _ _ w0
               (step_inv _ 0 w0 I0) Ec Et H1 H2 Es Fr).
    unfold tstep, branch; reflexivity. }
  rewrite G, map_map; apply map_ext; intros w.
  unfold chunk_of_word; rewrite <- chunk_of_single; reflexivity.
Qed.

End ChunkFacts.

(* ================================================================= *)
(** ** Pauses and punctuation inside a chunk *)

Section InsideChunks.

Context {T : Type} `{TimeOps T}.
Variable cfg : Config T.

Lemma nth_error_snoc {A} (g : list A) w k a :
  nth_error (g ++ [w]) k = Some a ->
  (k < length g /\ nth_error g k = Some a) \/ (k = length g /\ a = w).
Proof.
  intros E; destruct (Nat.lt_ge_cases k (length g)) as [L|L].
  - left; split; [exact L|]; now rewrite nth_error_app1 in E.
  - right; rewrite nth_error_app2 in E by exact L.
    destruct (k - length g) as [|d] eqn:D; simpl in E.
    + injection E as <-; split; [lia | reflexivity].
    + now destruct d.
Qed.

Lemma last_by_index {A} (g : list A) k a :
  nth_error g k = Some a -> S k = length g -> hd_error (rev g) = Some a.
Proof.
  intros E L.
  destruct (rev g) as [|z r] eqn:R.
  - apply (f_equal (@length _)) in R; rewrite length_rev in R.
    simpl in R; lia.
  - assert (Eg : g = rev r ++ [z]).
    { rewrite <- (rev_involutive g), R; reflexivity. }
    rewrite Eg in E, L; rewrite length_app in L; simpl in L.
    rewrite nth_error_app2 in E by lia.
    replace (k - length (rev r)) with 0 in E by lia.
    simpl in *; congruence.
Qed.

(** What the tests say when the word is absorbed. *)
Lemma absorbed_facts n i w (st : State T) :
  match branch cfg n i w st with
  | BAbsorb =>
      (chunk_text st <> [] ->
       tgeb (tsub (w_start w) (prev_word_end st)) (silence_threshold cfg)
       = false)
      /\ (ends_sentence cfg w = true -> n <= S i)
  | BPunct =>
      (chunk_text st <> [] ->
       tgeb (tsub (w_start w) (prev_word_end st)) (silence_threshold cfg)
       = false)
      /\ ends_sentence cfg w = true /\ S i < n
  | _ => True
  end.
Proof.
  unfold branch, ends_sentence, trimmed.
  destruct (chunk_start_time st) as [cs|]; [|exact I].
  destruct (_ >? _)%Z; [exact I|].
  destruct (tgtb _ _); [exact I|].
  destruct (tgeb _ _) eqn:EG.
  - destruct (chunk_text st) as [|c r] eqn:Et; cbn [andb len length].
    + destruct (str_in _ _) eqn:EP; cbn [andb].
      * destruct (Z.ltb_spec (Z.of_nat i) (Z.of_nat n - 1)).
        -- repeat split; [congruence | lia].
        -- split; [congruence | intros _; lia].
      * split; [congruence | discriminate].
    + replace (Z.of_nat (S (length r)) >? 0)%Z with true; [exact I|].
      symmetry; rewrite Z.gtb_ltb; apply Z.ltb_lt; lia.
  - cbn [andb]; destruct (str_in _ _) eqn:EP; cbn [andb].
    + destruct (Z.ltb_spec (Z.of_nat i) (Z.of_nat n - 1)).
      * repeat split; lia.
      * split; [reflexivity | intros _; lia].
    + split; [reflexivity | discriminate].
Qed.

Lemma quiet_single (w : Word T) : no_silence_inside cfg [w].
Proof. intros k a b _ Eb; destruct k; discriminate. Qed.

Lemma quiet_nil : no_silence_inside cfg (@nil (Word T)).
Proof. intros k a b Ea; destruct k; discriminate. Qed.

(** One more word at the end of a group without pause inside. *)
Lemma quiet_snoc (g : list (Word T)) w p :
  no_silence_inside cfg g ->
  (g <> [] -> group_end g = Some p) ->
  (words_text g <> [] ->
   tgeb (tsub (w_start w) p) (silence_threshold cfg) = false) ->
  no_silence_inside cfg (g ++ [w]).
Proof.
  intros Q Hp Hw k a b Ea Eb Ht.
  apply nth_error_snoc in Eb; destruct Eb as [[Lb Eb]|[Lb ->]].
  - rewrite nth_error_app1 in Ea by lia.
    rewrite firstn_app in Ht.
    replace (S k - length g) with 0 in Ht by lia.
    rewrite firstn_O, app_nil_r in Ht.
    now apply (Q k a b).
  - rewrite nth_error_app1 in Ea by lia.
    rewrite firstn_app in Ht.
    replace (S k - length g) with 0 in Ht by lia.
    rewrite firstn_O, app_nil_r, firstn_all2 in Ht by lia.
    assert (Hg : g <> []) by (intros ->; destruct k; discriminate).
    specialize (Hp Hg); unfold group_end in Hp.
    rewrite (last_by_index g Ea Lb) in Hp; simpl in Hp.
    injection Hp as <-; now apply Hw.
Qed.

Lemma punct_snoc n i (g : list (Word T)) w :
  i < n ->
  (forall k a, 0 < k -> nth_error g k = Some a ->
     ends_sentence cfg a = true -> n <= i /\ S k = length g) ->
  punctuation_at_ends cfg (g ++ [w]).
Proof.
  intros Hi J k a Hk Hl Ea.
  rewrite length_app in Hl; simpl in Hl.
  rewrite nth_error_app1 in Ea by lia.
  destruct (ends_sentence cfg a) eqn:E; [|reflexivity].
  destruct (J k a Hk Ea E); lia.
Qed.

Lemma reopen_inv2 n i w st tr :
  i < n -> Inv2 cfg n i st tr ->
  Inv cfg (reopen w st)
    {| closed := closed tr ++ [current tr]; current := [w] |} ->
  Inv2 cfg n (S i) (reopen w st)
    {| closed := closed tr ++ [current tr]; current := [w] |}.
Proof.
  intros Hi [I P QC Q PC PU] I'; constructor; cbn [closed current].
  - exact I'.
  - intros _; reflexivity.
  - apply Forall_app; split; [exact QC | now repeat constructor].
  - apply quiet_single.
  - apply Forall_app; split; [exact PC|]; constructor; [|constructor].
    intros k a Hk Hl Ea; destruct (ends_sentence cfg a) eqn:E; [|reflexivity].
    destruct (PU k a Hk Ea E); lia.
  - intros k a Hk Ea; destruct k as [|[|k]]; simpl in Ea;
      [lia | discriminate | discriminate].
Qed.

Lemma step_inv2 n i w st tr :
  i < n -> Inv2 cfg n i st tr ->
  Inv2 cfg n (S i) (step cfg n i w st) (tstep cfg n i w st tr).
Proof.
  intros Hi J.
  pose proof (step_inv n i w (inv2_inv J)) as I'.
  pose proof (absorbed_facts n i w st) as A.
  pose proof (branch_facts cfg n i w st) as B.
  revert I'; rewrite step_branch; unfold tstep.
  destruct (branch cfg n i w st); cbn [run_branch]; intros I'.
  - (* no chunk open: the trace holds no word *)
    destruct J as [I P QC Q PC PU].
    assert (E : current tr = []).
    { apply group_start_none; now rewrite <- (inv_start I). }
    rewrite E in *; constructor; cbn [closed current app]; try assumption.
    + intros _; reflexivity.
    + apply quiet_single.
    + intros k a Hk Ea; destruct k as [|[|k]]; simpl in Ea;
        [lia | discriminate | discriminate].
  - now apply reopen_inv2.
  - now apply reopen_inv2.
  - now apply reopen_inv2.
  - (* absorbed *)
    destruct J as [I P QC Q PC PU]; destruct A as [A1 A2].
    constructor; cbn [closed current]; try assumption.
    + intros _; apply group_end_snoc.
    + apply quiet_snoc with (prev_word_end st); try assumption.
      now rewrite <- (inv_text I).
    + intros k a Hk Ea Es.
      apply nth_error_snoc in Ea; destruct Ea as [[L Ea]|[L ->]].
      * destruct (PU k a Hk Ea Es); lia.
      * rewrite length_app; simpl; split; [apply (A2 Es) | lia].
  - (* absorbed, then closed by punctuation *)
    destruct J as [I P QC Q PC PU]; destruct A as (A1 & A2 & A3).
    constructor; cbn [closed current]; try assumption.
    + congruence.
    + apply Forall_app; split; [exact QC|]; constructor; [|constructor].
      apply quiet_snoc with (prev_word_end st); try assumption.
      now rewrite <- (inv_text I).
    + apply quiet_nil.
    + apply Forall_app; split; [exact PC|]; constructor; [|constructor].
      now apply punct_snoc with n i.
    + intros k a _ Ea; destruct k; discriminate.
Qed.

Lemma init_inv2 n : Inv2 cfg n 0 init {| closed := []; current := [] |}.
Proof.
  constructor; simpl; try (constructor; fail).
  - apply init_inv.
  - congruence.
  - apply quiet_nil.
  - intros k a _ Ea; destruct k; discriminate.
Qed.

Lemma tloop_inv2 n :
  forall ws i st tr,
    i + length ws = n -> Inv2 cfg n i st tr ->
    Inv2 cfg n n (fst (tloop cfg n i ws st tr))
      (snd (tloop cfg n i ws st tr)).
Proof.
  induction ws as [|w r IH]; intros i st tr Hn J; simpl in *.
  - assert (E : i = n) by lia; subst i; exact J.
  - apply IH; [lia|]; apply step_inv2; [lia | exact J].
Qed.

Lemma groups_inside (ws : list (Word T)) :
  Forall (no_silence_inside cfg) (segment_groups cfg ws)
  /\ Forall (punctuation_at_ends cfg) (segment_groups cfg ws).
Proof.
  unfold segment_groups.
  pose proof (@tloop_inv2 (length ws) ws 0 _ _ eq_refl (init_inv2 _)) as J.
  destruct (tloop cfg (length ws) 0 ws init _) as [st tr]; simpl in J.
  destruct J as [I P QC Q PC PU].
  unfold tflush; destruct (truthy _); [|now split].
  split; apply Forall_app; split; try assumption;
    constructor; try constructor; [exact Q|].
  intros k a Hk Hl Ea; destruct (ends_sentence cfg a) eqn:E; [|reflexivity].
  destruct (PU k a Hk Ea E); lia.
Qed.

(** X7. Inside a chunk there is no pause of [silence_threshold] or more: for
    two neighbouring words of a chunk, once the words up to the first of
    the two have given the chunk some text, the second starts less than
    [silence_threshold] after the end of the first. *)
Theorem no_silence_inside_chunks (ws g : list (Word T)) k a b :
  In g (segment_groups cfg ws) ->
  nth_error g k = Some a -> nth_error g (S k) = Some b ->
  words_text (firstn (S k) g) <> [] ->
  tgeb (tsub (w_start b) (w_end a)) (silence_threshold cfg) = false.
Proof.
  intros Hg; destruct (groups_inside ws) as [Q _].
  rewrite Forall_forall in Q; exact (Q g Hg k a b).
Qed.

(** X8. A word that ends in a character of [punctuation_breaks] is the first
    or the last word of its chunk, never one in between. *)
Theorem punctuation_only_at_chunk_ends (ws g : list (Word T)) k a :
  In g (segment_groups cfg ws) ->
  nth_error g k = Some a ->
  str_in (last_char (strip (w_word a))) (punctuation_breaks cfg) = true ->
  k = 0 \/ S k = length g.
Proof.
  intros Hg Ea Es; destruct (groups_inside ws) as [_ P].
  rewrite Forall_forall in P; specialize (P g Hg).
  destruct k as [|k]; [now left | right].
  assert (L : S k < length g) by (apply nth_error_Some; congruence).
  destruct (Nat.eq_dec (S (S k)) (length g)) as [E|E]; [exact E|].
  assert (L2 : S (S k) < length g) by lia.
  pose proof (P (S k) a ltac:(lia) L2 Ea) as N.
  unfold ends_sentence, trimmed in N; congruence.
Qed.

End InsideChunks.

(* ================================================================= *)
(** ** Reading time stamps back *)

Module ReadFacts.

Import Formatter FormatterFacts SrtRead.





Local Open Scope Z_scope.


Lemma millis_nonneg (s : Q) : (0 <= s)%Q -> 0 <= millis s.
Proof.
  intros Hs; apply Qfloor_nonneg.
  apply Qmult_le_0_compat; [exact Hs | discriminate].
Qed.




End ReadFacts.

Section TimestampFacts.

Import Formatter FormatterFacts SrtRead ReadFacts.

Local Open Scope Z_scope.



(** X12. For a negative time nothing is raised; the string starts with a minus
    sign, the hours being [floor(seconds / 3600) < 0], and does not read as
    a time stamp. *)
Theorem timestamp_of_negative (seconds : Q) :
  (seconds < 0)%Q ->
  (exists rest, convert_seconds_to_srt_time seconds = 45%N :: rest)
  /\ time_millis (convert_seconds_to_srt_time seconds) = None.
Proof.
  intros Hs.
  assert (Hh : int_of (floordiv seconds 3600) < 0).
  { rewrite (hours_value seconds).
    assert (HF : Qfloor seconds < 0).
    { destruct (Z.lt_ge_cases (Qfloor seconds) 0) as [L|L]; [exact L|].
      exfalso; apply (Qlt_not_le _ _ Hs).
      apply Qle_trans with (inject_Z (Qfloor seconds));
        [|apply Qfloor_le].
      change 0%Q with (inject_Z 0); rewrite <- Zle_Qle; exact L. }
    apply Z.div_lt_upper_bound; lia. }
  assert (E : exists rest, convert_seconds_to_srt_time seconds = 45%N :: rest).
  { unfold convert_seconds_to_srt_time, format_int_zero at 1.
    destruct (Z.ltb_spec (int_of (floordiv seconds 3600)) 0); [|lia].
    cbn [app]; eauto. }
  split; [exact E|].
  destruct E as [rest E]; rewrite E; reflexivity.
Qed.

End TimestampFacts.

(* ================================================================= *)
(** ** The files written *)

Module WriteFacts.

Import Formatter FormatterFacts Call Transcribir SrtRead SrtRecords ReadFacts.

Lemma write_segments_blocks segments :
  forall i f, write_segments i segments f = f ++ blocks i segments.
Proof.
  induction segments as [|s r IH]; intros i f; cbn [write_segments blocks].
  - now rewrite app_nil_r.
  - rewrite IH; unfold block; now rewrite <- !app_assoc.
Qed.

Lemma blocks_app a b i :
  blocks i (a ++ b) = blocks i a ++ blocks (i + Z.of_nat (length a)) b.
Proof.
  revert i; induction a as [|s r IH]; intros i; cbn [app blocks length].
  - now rewrite Z.add_0_r.
  - rewrite IH, <- app_assoc; do 3 f_equal; lia.
Qed.

(** The second variant's loop writes the blocks of the matching
    segments. *)
Lemma write_subtitles_blocks subs segs :
  Forall2 same_record subs segs ->
  Forall (fun s => strip (seg_text s) = seg_text s) segs ->
  forall i f,
    write_subtitles i subs f = (f ++ blocks i segs, Returned tt).
Proof.
  induction 1 as [|c s subs segs (Es & Ee & Et) _ IH]; intros F i f.
  - simpl; now rewrite app_nil_r.
  - inversion F as [|? ? Hs Fr]; subst.
    cbn [write_subtitles blocks]; rewrite Es, Ee, Et, (IH Fr).
    unfold block; rewrite Hs; now rewrite <- !app_assoc.
Qed.






End WriteFacts.

Section FileClaims.

Import Formatter Call Transcribir SrtRead SrtRecords WriteFacts.

(** [create_srt] numbers the records from 1 in the order of the segments:
    the file of a longer list starts with the file of the list it extends,
    and the records that follow are numbered on. *)
Theorem create_srt_extends (a b : list WSegment) :
  write_segments 1 (a ++ b) []
  = write_segments 1 a [] ++ blocks (1 + Z.of_nat (length a)) b.
Proof.
  rewrite !write_segments_blocks; cbn [app]; apply blocks_app.
Qed.


End FileClaims.

(* ================================================================= *)
(** ** The file of the second variant *)

Section NaturalBreaksFile.

Import Formatter Call Transcribir SrtRead SrtRecords WriteFacts.

Variable cfg : Config Q.


(** The chunks, as segments of the first variant. *)
Lemma chunks_as_segments (ws : list (Word Q)) :
  exists segs,
    Forall2 same_record (segment cfg ws) segs
    /\ Forall (fun s => strip (seg_text s) = seg_text s) segs
    /\ Forall (fun s =>
                 exists g w1 w2,
                   In g (segment_groups cfg ws)
                   /\ In w1 g /\ In w2 g
                   /\ seg_start s = w_start w1 /\ seg_end s = w_end w2
                   /\ seg_text s = words_text g) segs.
Proof.
  destruct (segment_structure cfg ws) as (E & Ok & _).
  rewrite E; clear E.
  induction Ok as [|g gs [Hg _] _ IH].
  - exists []; repeat constructor.
  - destruct IH as (segs & F2 & Fs & Fw).
    destruct g as [|w1 r]; [congruence|].
    destruct (rev (w1 :: r)) as [|w2 r'] eqn:R.
    { apply (f_equal (@length _)) in R; rewrite length_rev in R.
      discriminate. }
    exists ({| seg_start := w_start w1; seg_end := w_end w2;
               seg_text := words_text (w1 :: r) |} :: segs).
    split; [|split].
    + constructor; [|exact F2].
      unfold same_record, chunk_of_group, group_end; cbn [s_start s_end
        s_text seg_start seg_end seg_text]; rewrite R; now repeat split.
    + constructor; [|exact Fs].
      apply strip_of_stripped, words_text_stripped.
    + constructor.
      * exists (w1 :: r), w1, w2; repeat split; try (now left).
        apply in_rev; rewrite R; now left.
      * eapply Forall_impl; [|exact Fw].
        intros s (g & a & b & Hg' & Rest); exists g, a, b.
        split; [now right | exact Rest].
Qed.

(** X14. The second variant writes the file [create_srt] of the first variant
    writes for the chunks taken as segments, and ends like it: same path,
    same records, nothing printed; the chunk texts need no further
    stripping. *)
Theorem natural_breaks_writes_as_create_srt result srt_path :
  words_list (segments result) <> [] ->
  exists segs,
    Forall2 same_record
      (segment cfg (words_list (segments result))) segs
    /\ create_srt_with_natural_breaks result srt_path cfg
       = create_srt segs srt_path.
Proof.
  intros Hne.
  destruct (chunks_as_segments (words_list (segments result)))
    as (segs & F2 & Fs & _).
  exists segs; split; [exact F2|].
  unfold create_srt_with_natural_breaks, create_srt.
  destruct (words_list (segments result)) as [|w ws]; [congruence|].
  rewrite (write_subtitles_blocks F2 Fs), write_segments_blocks.
  reflexivity.
Qed.


Lemma words_list_nil_iff (segs : list (Segment Q)) :
  words_list segs = []
  <-> Forall (fun s => seg_words s = None \/ seg_words s = Some []) segs.
Proof.
  induction segs as [|s r IH]; simpl; [split; [constructor | reflexivity]|].
  destruct (seg_words s) as [ws|] eqn:E.
  - split.
    + intros Ea; apply app_eq_nil in Ea; destruct Ea as [-> Er].
      constructor; [now right | now apply IH].
    + intros F; inversion F as [|? ? [Hs|Hs] Fr]; subst; [congruence|].
      rewrite E in Hs; injection Hs as ->; now apply IH.
  - split.
    + intros Er; constructor; [now left | now apply IH].
    + intros F; inversion F; subst; now apply IH.
Qed.

(** X16. The call writes no file, and prints its warning, exactly when every
    segment lacks the key ["words"] or has an empty list of words; in every
    other case it prints nothing and writes one file, at [srt_path]. *)
Theorem no_file_iff_no_words result srt_path :
  let run := create_srt_with_natural_breaks result srt_path cfg in
  let wordless :=
    Forall (fun s => seg_words s = None \/ seg_words s = Some [])
      (segments result) in
  (files run = [] <-> wordless)
  /\ (printed run = [no_words_message] <-> wordless)
  /\ (~ wordless ->
      printed run = [] /\ exists f, files run = [(srt_path, f)]).
Proof.
  intros run wordless; subst run wordless.
  rewrite <- words_list_nil_iff.
  unfold create_srt_with_natural_breaks.
  destruct (words_list (segments result)) as [|w ws] eqn:E.
  - repeat split; intros; congruence.
  - destruct (write_subtitles 1 (segment cfg (w :: ws)) []) as [f o].
    cbn [files printed]; repeat split; try discriminate.
    exists f; reflexivity.
Qed.

End NaturalBreaksFile.

(* ================================================================= *)
(** ** All the text, and no overlap *)

Section WholeOutput.

Context {T : Type} `{TimeOps T}.
Variable cfg : Config T.

Lemma spoken_app (g h : list (Word T)) : spoken (g ++ h) = spoken g ++ spoken h.
Proof. unfold spoken; now rewrite map_app, filter_app. Qed.

Lemma spoken_concat (gs : list (list (Word T))) :
  spoken (concat gs) = concat (List.map spoken gs).
Proof.
  induction gs as [|g gs IH]; [reflexivity|].
  cbn [concat List.map]; now rewrite spoken_app, IH.
Qed.

Lemma spoken_blank (g : list (Word T)) :
  Forall (fun w => trimmed w = []) g -> spoken g = [].
Proof.
  induction 1 as [|w r Hw _ IH]; [reflexivity|].
  unfold spoken in *; cbn [List.map filter]; now rewrite Hw.
Qed.

Lemma truthy_words_text (g : list (Word T)) :
  truthy (words_text g) = match spoken g with [] => false | _ => true end.
Proof.
  change (words_text g) with (join space (spoken g)).
  pose proof (trimmed_words_ok g) as Hok; fold (spoken g) in Hok.
  destruct (spoken g) as [|x r] eqn:E; [reflexivity|].
  destruct (join space (x :: r)) eqn:J; [|reflexivity].
  exfalso; refine (ok_nonempty _ J); apply join_ok; [discriminate | exact Hok].
Qed.

(** Joining the texts of the groups that have some is joining what all
    the words say. *)
Lemma join_groups (gs : list (list (Word T))) :
  join space (filter truthy (List.map words_text gs))
  = join space (concat (List.map spoken gs)).
Proof.
  induction gs as [|g gs IH]; [reflexivity|].
  cbn [List.map filter concat]; rewrite truthy_words_text.
  destruct (spoken g) as [|x r] eqn:E; [exact IH|].
  change (words_text g) with (join space (spoken g)); rewrite E.
  destruct (filter truthy (List.map words_text gs)) as [|t ts] eqn:Ef.
  - destruct (concat (List.map spoken gs)) as [|y ys] eqn:Ec.
    + now rewrite app_nil_r.
    + exfalso.
      pose proof (trimmed_words_ok (concat gs)) as Hok.
      fold (spoken (concat gs)) in Hok; rewrite spoken_concat, Ec in Hok.
      assert (J : join space (y :: ys) = []) by (now rewrite <- IH).
      refine (ok_nonempty _ J).
      apply join_ok; [discriminate | exact Hok].
  - rewrite join_cons by discriminate; rewrite IH.
    destruct (concat (List.map spoken gs)) as [|y ys] eqn:Ec.
    + exfalso.
      assert (Ht : In t (filter truthy (List.map words_text gs)))
        by (rewrite Ef; now left).
      apply filter_In in Ht; destruct Ht as [_ Ht].
      assert (Hj : join space (t :: ts) <> []).
      { destruct ts; [now destruct t|].
        rewrite join_cons by discriminate; now destruct t. }
      apply Hj; exact IH.
    + rewrite join_app by discriminate; reflexivity.
Qed.

(** X1. For every input, the texts of the chunks that have a text, joined by
    single spaces, are the trimmed texts of the words that are not blank,
    joined by single spaces: blank words add nothing and no other word is
    lost, doubled or moved. *)
Theorem all_text_is_kept (ws : list (Word T)) :
  join space (filter truthy (List.map (@s_text T) (segment cfg ws)))
  = join space
      (filter truthy (List.map (fun w => strip (w_word w)) ws)).
Proof.
  destruct (segment_structure cfg ws) as (E & _ & rest & Ews & Hrest).
  rewrite E, map_map; cbn [chunk_of_group s_text].
  rewrite join_groups, <- spoken_concat.
  change (filter truthy (List.map (fun w => strip (w_word w)) ws))
    with (spoken ws).
  rewrite Ews at 2; rewrite spoken_app, (spoken_blank Hrest).
  now rewrite app_nil_r.
Qed.

(** *** No overlap *)

Lemma sorted_app_inv {A} (R : A -> A -> Prop) l1 l2 :
  Sorted R (l1 ++ l2) ->
  Sorted R l2
  /\ forall a b l1' l2', l1 = l1' ++ [a] -> l2 = b :: l2' -> R a b.
Proof.
  induction l1 as [|x r IH]; cbn [app]; intros S.
  - split; [exact S|]; intros a b l1' l2' E; now destruct l1'.
  - apply Sorted_inv in S; destruct S as [S Hd].
    destruct (IH S) as [S2 C]; split; [exact S2|].
    intros a b l1' l2' E1 E2; destruct l1' as [|y l1'].
    + injection E1 as -> ->; subst l2; cbn [app] in Hd.
      now inversion Hd.
    + injection E1 as -> E1; now apply (C a b l1' l2').
Qed.

Lemma chunks_follow (gs : list (list (Word T))) rest :
  Forall (fun g => g <> []) gs ->
  Sorted then_word (concat gs ++ rest) ->
  Sorted then_chunk (List.map chunk_of_group gs).
Proof.
  induction 1 as [|g gs Hg Hgs IH]; cbn [concat List.map];
    intros S; [constructor|].
  rewrite <- app_assoc in S.
  destruct (sorted_app_inv _ _ S) as [S2 C].
  constructor; [now apply IH|].
  destruct gs as [|g' gs']; [constructor|].
  inversion Hgs as [|? ? Hg' _]; subst.
  destruct g' as [|b r']; [congruence|].
  constructor.
  destruct (rev g) as [|a r] eqn:R.
  { apply (f_equal (@length _)) in R; rewrite length_rev in R.
    destruct g; [congruence | discriminate]. }
  exists (w_end a), (w_start b); split; [|split].
  - unfold chunk_of_group, group_end; cbn [s_end]; now rewrite R.
  - reflexivity.
  - apply (C a b (rev r) ((r' ++ concat gs') ++ rest)).
    + rewrite <- (rev_involutive g), R; reflexivity.
    + reflexivity.
Qed.

(** X9. When every word starts when the word before it has ended, or later,
    every chunk starts when the chunk before it has ended, or later: the
    subtitles do not overlap. *)
Theorem chunks_do_not_overlap (ws : list (Word T)) :
  Sorted then_word ws -> Sorted then_chunk (segment cfg ws).
Proof.
  intros S.
  destruct (segment_structure cfg ws) as (E & Ok & rest & Ews & _).
  rewrite E; apply chunks_follow with rest.
  - eapply Forall_impl; [|exact Ok]; now intros g [Hg _].
  - now rewrite <- Ews.
Qed.

End WholeOutput.

(* ================================================================= *)
(** ** The further properties at the example inputs *)

Lemma chunk_texts_stripped_witness :
  strip (lit "Hola mundo.") = lit "Hola mundo.".
Proof.
  refine (proj1 (@chunk_texts_stripped Q Q_time Scenario.default_config
                   Scenario.words_a
                   (Scenario.mk_sub 0%Q (9 # 10)%Q (lit "Hola mundo.")) _)).
  vm_compute; left; reflexivity.
Defined.

Lemma closed_chunks_stay_witness :
  exists more,
    segment Scenario.default_config
      ([Instances.hola; Instances.mundo] ++ [Instances.last_one])
    = subtitles
        (loop Scenario.default_config 3 0
           [Instances.hola; Instances.mundo] init) ++ more.
Proof.
  refine (@closed_chunks_stay Q Q_time Scenario.default_config
            [Instances.hola; Instances.mundo] [Instances.last_one] _).
  discriminate.
Defined.

Lemma every_word_overlong_witness :
  segment CallExamples.bad_config Scenario.words_a
  = List.map (@chunk_of_word Q) Scenario.words_a.
Proof.
  refine (@every_word_overlong Q Q_time CallExamples.bad_config
            Scenario.words_a _).
  repeat constructor; vm_compute; discriminate.
Defined.

Lemma no_silence_inside_chunks_witness :
  tgtb (silence_threshold Scenario.default_config)
    (tsub (w_start Instances.mundo) (w_end Instances.hola)) = true
  /\ tgeb (tsub (w_start Instances.mundo) (w_end Instances.hola))
       (silence_threshold Scenario.default_config) = false.
Proof.
  split; [reflexivity|].
  refine (@no_silence_inside_chunks Q Q_time Scenario.default_config
            Scenario.words_a Examples2.group_a 0 Instances.hola
            Instances.mundo _ _ _ _).
  - vm_compute; left; reflexivity.
  - reflexivity.
  - reflexivity.
  - vm_compute; discriminate.
Defined.

Lemma punctuation_only_at_chunk_ends_witness :
  1 = 0 \/ 2 = length Examples2.group_a.
Proof.
  refine (@punctuation_only_at_chunk_ends Q Q_time Scenario.default_config
            Scenario.words_a Examples2.group_a 1 Instances.mundo _ _ _).
  - vm_compute; left; reflexivity.
  - reflexivity.
  - reflexivity.
Defined.

Lemma chunks_do_not_overlap_witness :
  Sorted (@then_chunk Q Q_time)
    (segment Scenario.default_config Scenario.words_a).
Proof.
  refine (@chunks_do_not_overlap Q Q_time Scenario.default_config
            Scenario.words_a _).
  repeat constructor.
Defined.



Lemma timestamp_of_negative_witness :
  exists rest,
    Formatter.convert_seconds_to_srt_time (- (3 # 2)) = 45%N :: rest.
Proof.
  refine (proj1 (@timestamp_of_negative (- (3 # 2))%Q _)).
  reflexivity.
Defined.


Lemma natural_breaks_writes_as_create_srt_witness :
  exists segs,
    Forall2 SrtRecords.same_record
      (segment Scenario.default_config
         (words_list (Call.segments CallExamples.result_a))) segs
    /\ Call.create_srt_with_natural_breaks CallExamples.result_a
         CallExamples.path Scenario.default_config
       = Transcribir.create_srt segs CallExamples.path.
Proof.
  refine (@natural_breaks_writes_as_create_srt Scenario.default_config
            CallExamples.result_a CallExamples.path _).
  vm_compute; discriminate.
Defined.

